(** * trycatcher: asynchronous control-flow combinators of [src/index.ts]

    A shallow embedding of [retry], [rateLimit], [withCancel], [batch] and
    [withTimeout], and the properties of them that the specification states.

    Conventions of the embedding.
    - A JavaScript [number] that the specification types as an integer is a
      [Z]; [x || d] on such a number picks [d] when [x] is [undefined] or [0].
    - A promise is represented by its settlement, an [Outcome].
    - The event loop is single threaded: a combinator that reacts to timers
      and settlements is a state machine whose inputs are those callbacks, in
      the order in which the loop runs them.
    - Observable effects (a call of the task factory, a callback, a
      [setTimeout] suspension) are recorded in a trace, in program order. *)

From Stdlib Require Import String ZArith List Bool Lia Arith.
From Stdlib Require Import Permutation.
Import ListNotations.
Open Scope Z_scope.

Set Implicit Arguments.

(** ** Errors and outcomes *)

Module Js.

(** [class AppError extends Error]: the fields the combinators set. *)
Record AppError : Type := mkAppError {
  message : string;
  code : string;
  statusCode : Z;
  isOperational : bool
}.

(** The [options] argument of the [AppError] constructor. *)
Record AppErrorOptions : Type := mkAppErrorOptions {
  opt_code : option string;
  opt_statusCode : option Z;
  opt_isOperational : option bool
}.

(** [s || d] on strings: the empty string is falsy. *)
Definition or_string (s : option string) (d : string) : string :=
  match s with
  | Some EmptyString | None => d
  | Some s' => s'
  end.

(** [x || d] on numbers: [0] is falsy. *)
Definition or_number (x : option Z) (d : Z) : Z :=
  match x with
  | Some v => if v =? 0 then d else v
  | None => d
  end.

(** [b !== false]. *)
Definition not_false (b : option bool) : bool :=
  match b with
  | Some false => false
  | _ => true
  end.

(** [new AppError(message, options)]. *)
Definition new_AppError (msg : string) (o : AppErrorOptions) : AppError :=
  {| message := msg;
     code := or_string (opt_code o) "INTERNAL_ERROR";
     statusCode := or_number (opt_statusCode o) 500;
     isOperational := not_false (opt_isOperational o) |}.

(** A value that a promise can reject with. *)
Inductive Thrown : Type :=
| Undefined : Thrown
| PlainError : string -> Thrown
| App : AppError -> Thrown.

(** The classification of a failure: its [code] field, when it has one. *)
Definition classification (e : Thrown) : option string :=
  match e with
  | App a => Some (code a)
  | _ => None
  end.

(** The settlement of a [Promise<T>]. *)
Inductive Outcome (T : Type) : Type :=
| Fulfilled : T -> Outcome T
| Rejected : Thrown -> Outcome T.

Arguments Fulfilled {T} _.
Arguments Rejected {T} _.

Definition is_rejected {T} (o : Outcome T) : bool :=
  match o with
  | Rejected _ => true
  | Fulfilled _ => false
  end.

(** [Array.prototype.slice(start, end)]: a negative index counts from the
    end of the array, and both indices are clamped to the array. *)
Definition relative_index (len k : Z) : Z :=
  if k <? 0 then Z.max (len + k) 0 else Z.min k len.

Definition slice {A} (l : list A) (s e : Z) : list A :=
  let len := Z.of_nat (length l) in
  let from := relative_index len s in
  let to := relative_index len e in
  firstn (Z.to_nat (to - from)) (skipn (Z.to_nat from) l).

End Js.

Import Js.

(** ** [retry] *)

Module Retry.

(** The [options] argument of [retry]. The callback [onRetry] is an
    observer: the model keeps whether it was supplied, and records each of
    its invocations in the trace. *)
Record Options : Type := mkOptions {
  attempts : option Z;
  delay : option Z;
  backoff : option bool;
  onRetry : bool
}.

Inductive Event : Type :=
| EvCall : Event                       (* [fn()] *)
| EvOnRetry : Z -> Thrown -> Event     (* [onRetry(attempt, lastError)] *)
| EvSleep : Z -> Event.                (* [setTimeout(resolve, waitTime)] *)

(** [const attempts = options.attempts || 3] *)
Definition attempts_of (o : Options) : Z := or_number (attempts o) 3.

(** [const delay = options.delay || 1000] *)
Definition delay_of (o : Options) : Z := or_number (delay o) 1000.

(** [const backoff = options.backoff !== false] *)
Definition backoff_of (o : Options) : bool := not_false (backoff o).

(** [backoff ? delay * Math.pow(2, attempt - 1) : delay] *)
Definition waitTime (backoff : bool) (delay attempt : Z) : Z :=
  if backoff then delay * 2 ^ (attempt - 1) else delay.

(** [if (onRetry) { onRetry(attempt, lastError); }] *)
Definition notify (o : Options) (attempt : Z) (e : Thrown) : list Event :=
  if onRetry o then [EvOnRetry attempt e] else [].

Section Loop.

Context {T : Type}.

(** The task factory: [fn k] is the settlement of the promise returned by
    its [k]-th invocation, counted from 0. *)
Variable fn : nat -> Outcome T.
Variable o : Options.

(** The body of the [catch] block after [lastError = error]. *)
Definition on_failure (attempt : Z) (e : Thrown) : list Event :=
  if attempt <? attempts_of o
  then notify o attempt e
       ++ [EvSleep (waitTime (backoff_of o) (delay_of o) attempt)]
  else [].

(** The [for] loop followed by [throw lastError!]. [calls] counts the
    invocations of [fn] so far; [fuel] bounds the iterations. *)
Fixpoint retry_loop (fuel : nat) (attempt : Z) (calls : nat)
         (lastError : Thrown) : option (Outcome T * list Event) :=
  if attempt <=? attempts_of o then
    match fuel with
    | O => None
    | S fuel' =>
        match fn calls with
        | Fulfilled v => Some (Fulfilled v, [EvCall])
        | Rejected e =>
            match retry_loop fuel' (attempt + 1) (S calls) e with
            | Some (r, tr) => Some (r, EvCall :: on_failure attempt e ++ tr)
            | None => None
            end
        end
    end
  else Some (Rejected lastError, []).

(** [retry(fn, options)]: the loop has at most [attempts] iterations. *)
Definition retry : option (Outcome T * list Event) :=
  retry_loop (Z.to_nat (attempts_of o)) 1 0%nat Undefined.

(** The specification's account of [k] failed attempts none of which is the
    last one, from [attempt] on: the call, then the callback, then the
    suspension. [err c] is the error of call [c]. *)
Fixpoint failed_attempts (err : nat -> Thrown) (k : nat) (attempt : Z)
         (calls : nat) : list Event :=
  match k with
  | O => []
  | S k' =>
      EvCall :: notify o attempt (err calls)
        ++ [EvSleep (waitTime (backoff_of o) (delay_of o) attempt)]
        ++ failed_attempts err k' (attempt + 1) (S calls)
  end.

End Loop.

(** The delays of a trace, in order. *)
Definition sleeps (tr : list Event) : list Z :=
  flat_map (fun e => match e with EvSleep ms => [ms] | _ => [] end) tr.

(** The arguments of the [onRetry] invocations of a trace, in order. *)
Definition onRetry_calls (tr : list Event) : list (Z * Thrown) :=
  flat_map (fun e => match e with EvOnRetry a x => [(a, x)] | _ => [] end) tr.

End Retry.

(** ** [rateLimit] *)

Module RateLimit.

Section Dispatcher.

Context {Args T : Type}.

(** [options.maxCalls]. The period [options.perInterval] only fixes when the
    interval timer fires; the model takes the firings as inputs. *)
Variable maxCalls : Z.

(** An element of [queue]: the arguments, and the [resolve]/[reject] pair of
    the caller's promise, named by a number. *)
Record Entry : Type := mkEntry {
  args : Args;
  channel : nat
}.

Inductive Event : Type :=
| Invoked : Entry -> Event               (* [fn(...args)] is invoked *)
| WindowReset : Event                     (* [callsMade = 0] *)
| Delivered : nat -> Outcome T -> Event.  (* [resolve(result)] or [reject(error)] *)

(** The closure state of one dispatcher. [inflight] holds the channels of
    the invocations of [processQueue] that are suspended at [await]. *)
Record State : Type := mkState {
  queue : list Entry;
  callsMade : Z;
  interval : bool;
  inflight : list nat;
  next_channel : nat;
  history : list Event
}.

Definition init : State := mkState [] 0 false [] 0%nat [].

(** What the event loop runs: a call of the dispatcher, a firing of the
    interval timer, the settlement of a promise returned by [fn]. As its
    type says, [fn] returns a promise: [await] suspends [processQueue]
    until that promise has settled. *)
Inductive Input : Type :=
| Call : Args -> Input
| Tick : Input
| Settled : nat -> Outcome T -> Input.

(** [processQueue], up to its [await]. *)
Definition processQueue (st : State) : State :=
  match queue st with
  | [] => st
  | e :: rest =>
      if callsMade st >=? maxCalls then st
      else {| queue := rest;
              callsMade := callsMade st + 1;
              interval := interval st;
              inflight := inflight st ++ [channel e];
              next_channel := next_channel st;
              history := history st ++ [Invoked e] |}
  end.

(** [processQueue], from its [await] on, for the invocation on channel
    [ch]: the outcome is routed to the caller, then the queue is looked at
    again. *)
Definition resume (ch : nat) (r : Outcome T) (st : State) : State :=
  if existsb (Nat.eqb ch) (inflight st) then
    let st' := {| queue := queue st;
                  callsMade := callsMade st;
                  interval := interval st;
                  inflight := filter (fun c => negb (Nat.eqb ch c)) (inflight st);
                  next_channel := next_channel st;
                  history := history st ++ [Delivered ch r] |} in
    match queue st' with
    | [] => st'
    | _ :: _ => processQueue st'
    end
  else st.

(** [resetCalls]; the timer exists once the dispatcher has been called. *)
Definition resetCalls (st : State) : State :=
  if interval st then
    processQueue {| queue := queue st;
                    callsMade := 0;
                    interval := interval st;
                    inflight := inflight st;
                    next_channel := next_channel st;
                    history := history st ++ [WindowReset] |}
  else st.

(** The function that [rateLimit] returns, applied to [a]. *)
Definition dispatcher (a : Args) (st : State) : State :=
  processQueue {| queue := queue st ++ [mkEntry a (next_channel st)];
                  callsMade := callsMade st;
                  interval := true;
                  inflight := inflight st;
                  next_channel := S (next_channel st);
                  history := history st |}.

Definition step (st : State) (i : Input) : State :=
  match i with
  | Call a => dispatcher a st
  | Tick => resetCalls st
  | Settled ch r => resume ch r st
  end.

Definition run (inputs : list Input) (st : State) : State :=
  fold_left step inputs st.

(** The entries handed to [fn], in the order of the invocations. *)
Definition invocations (h : list Event) : list Entry :=
  flat_map (fun e => match e with Invoked x => [x] | _ => [] end) h.

(** The number of invocations of [fn] since the last window reset. *)
Definition invoked_in_window (h : list Event) : Z :=
  fold_left (fun n e => match e with
                        | Invoked _ => n + 1
                        | WindowReset => 0
                        | Delivered _ _ => n
                        end) h 0.

(** A call waits in the queue only when the budget of the window is used
    up. *)
Definition drained (st : State) : Prop :=
  queue st = [] \/ maxCalls <= callsMade st.

Definition is_tick (i : Input) : bool :=
  match i with Tick => true | _ => false end.

(** The counter agrees with the history and stays within the budget, and
    nothing has happened before the first call of the dispatcher. *)
Definition consistent (st : State) : Prop :=
  callsMade st = invoked_in_window (history st) /\
  0 <= callsMade st <= maxCalls /\
  (interval st = false ->
   queue st = [] /\ inflight st = [] /\ callsMade st = 0).

End Dispatcher.

Arguments Entry : clear implicits.
Arguments Event : clear implicits.
Arguments State : clear implicits.
Arguments Input : clear implicits.

End RateLimit.

(** ** [withCancel] *)

Module Cancel.

Section Handle.

Context {T : Type}.

(** [isCancelled], and the settlement of [wrappedPromise] once it has one. *)
Record State : Type := mkState {
  isCancelled : bool;
  wrapped : option (Outcome T)
}.

Definition init : State := mkState false None.

(** What the event loop runs: [cancel()], and the reaction registered with
    [promise.then] once the underlying promise has settled. *)
Inductive Input : Type :=
| CancelCall : Input
| Settled : Outcome T -> Input.

Definition cancelled_error : Thrown :=
  App (new_AppError "Operation cancelled"
         (mkAppErrorOptions (Some "CANCELLED"%string) None None)).

(** [resolve] and [reject] settle a promise only the first time. *)
Definition settle (r : Outcome T) (st : State) : State :=
  match wrapped st with
  | None => mkState (isCancelled st) (Some r)
  | Some _ => st
  end.

Definition step (st : State) (i : Input) : State :=
  match i with
  | CancelCall => mkState true (wrapped st)
  | Settled (Fulfilled v) =>
      if isCancelled st then settle (Rejected cancelled_error) st
      else settle (Fulfilled v) st
  | Settled (Rejected e) => settle (Rejected e) st
  end.

Definition run (inputs : list Input) (st : State) : State :=
  fold_left step inputs st.

(** [withCancel(promise)] under a schedule of the event loop. *)
Definition withCancel (inputs : list Input) : option (Outcome T) :=
  wrapped (run inputs init).

End Handle.

Arguments State : clear implicits.
Arguments Input : clear implicits.

End Cancel.

(** ** [batch] *)

Module Batch.

Record Options : Type := mkOptions {
  size : option Z;
  delay : option Z;
  concurrency : option Z
}.

(** [const size = options.size || 10] *)
Definition size_of (o : Options) : Z := or_number (size o) 10.

(** [const delay = options.delay || 0] *)
Definition delay_of (o : Options) : Z := or_number (delay o) 0.

(** A promise returned by [processor]: when it settles, counted from the
    start of its group, and how. *)
Record Settlement (R : Type) : Type := mkSettlement {
  after : Z;
  outcome : Outcome R
}.

Section Processor.

Context {T R : Type}.

Inductive Event : Type :=
| EvGroup : list T -> Event   (* [batch.map(item => processor(item))] *)
| EvSleep : Z -> Event.       (* [setTimeout(resolve, delay)] *)

(** The rejection that settles first; the earlier promise wins a tie. *)
Fixpoint first_rejection (ps : list (Settlement R)) : option (Z * Thrown) :=
  match ps with
  | [] => None
  | p :: ps' =>
      match outcome p, first_rejection ps' with
      | Rejected e, Some (t', e') =>
          if after p <=? t' then Some (after p, e) else Some (t', e')
      | Rejected e, None => Some (after p, e)
      | Fulfilled _, r => r
      end
  end.

Definition values (ps : list (Settlement R)) : list R :=
  flat_map (fun p => match outcome p with
                     | Fulfilled v => [v]
                     | Rejected _ => []
                     end) ps.

(** [Promise.all]: rejected with the first rejection, otherwise fulfilled
    with the values in the order of the promises. *)
Definition promise_all (ps : list (Settlement R)) : Outcome (list R) :=
  match first_rejection ps with
  | Some (_, e) => Rejected e
  | None => Fulfilled (values ps)
  end.

Variable items : list T.
Variable processor : T -> Settlement R.
Variable o : Options.

(** The [for] loop and [return results]. [fuel] bounds the iterations. *)
Fixpoint batch_loop (fuel : nat) (i : Z) (results : list R)
  : option (Outcome (list R) * list Event) :=
  if i <? Z.of_nat (length items) then
    match fuel with
    | O => None
    | S fuel' =>
        let group := slice items i (i + size_of o) in
        match promise_all (map processor group) with
        | Rejected e => Some (Rejected e, [EvGroup group])
        | Fulfilled batchResults =>
            let pause :=
              if (delay_of o >? 0) && (i + size_of o <? Z.of_nat (length items))
              then [EvSleep (delay_of o)] else [] in
            match batch_loop fuel' (i + size_of o) (results ++ batchResults) with
            | Some (r, tr) => Some (r, EvGroup group :: pause ++ tr)
            | None => None
            end
        end
    end
  else Some (Fulfilled results, []).

(** [batch(items, processor, options)]. With a positive [size] the loop
    has at most one iteration per item. *)
Definition batch : option (Outcome (list R) * list Event) :=
  batch_loop (length items) 0 [].

End Processor.

Arguments Event : clear implicits.

(** The groups handed to [Promise.all], in order. *)
Definition groups {T} (tr : list (Event T)) : list (list T) :=
  flat_map (fun e => match e with EvGroup g => [g] | EvSleep _ => [] end) tr.

Definition pauses {T} (tr : list (Event T)) : list Z :=
  flat_map (fun e => match e with EvSleep d => [d] | EvGroup _ => [] end) tr.

(** The specification's partition: contiguous groups of [n] items, the last
    one possibly smaller. [fuel] bounds the number of groups. *)
Fixpoint chunks_loop {T} (fuel n : nat) (l : list T) : list (list T) :=
  match fuel, l with
  | _, [] => []
  | O, _ => []
  | S fuel', _ => firstn n l :: chunks_loop fuel' n (skipn n l)
  end.

Definition chunks {T} (n : nat) (l : list T) : list (list T) :=
  chunks_loop (length l) n l.

(** The number of items of a group, for a positive [size]. *)
Definition group_size (o : Options) : nat := Z.to_nat (size_of o).

(** A partition into groups of [n] items, the last one possibly smaller. *)
Fixpoint well_grouped {T} (n : nat) (gs : list (list T)) : Prop :=
  match gs with
  | [] => True
  | [g] => (1 <= length g <= n)%nat
  | g :: gs' => length g = n /\ well_grouped n gs'
  end.

(** The processor fulfils the promise it returns for [x]. *)
Definition succeeds {T R} (processor : T -> Settlement R) (x : T) : Prop :=
  is_rejected (outcome (processor x)) = false.

End Batch.

(** ** [withTimeout] *)

Module Timeout.

Inductive Timer : Type :=
| Armed : Timer      (* [setTimeout] was called, the callback has not run *)
| Fired : Timer      (* the callback has run *)
| Cleared : Timer.   (* [clearTimeout(timeoutId)] was called before that *)

Section Race.

Context {T : Type}.

Variable message : string.

Record State : Type := mkState {
  wrapped : option (Outcome T);
  timer : Timer
}.

(** After the executor has run: the returned promise is pending, the timer
    is set. *)
Definition init : State := mkState None Armed.

(** What the event loop runs: the timer callback, and the reactions
    chained on the underlying promise once it has settled. *)
Inductive Input : Type :=
| TimerFires : Input
| Settled : Outcome T -> Input.

Definition timeout_error : Thrown :=
  App (new_AppError message
         (mkAppErrorOptions (Some "TIMEOUT"%string) (Some 408) (Some true))).

(** [resolve] and [reject] settle a promise only the first time. *)
Definition settle (r : Outcome T) (st : State) : State :=
  match wrapped st with
  | None => mkState (Some r) (timer st)
  | Some _ => st
  end.

(** [clearTimeout] does nothing to a timer that has fired. *)
Definition clearTimeout (st : State) : State :=
  match timer st with
  | Armed => mkState (wrapped st) Cleared
  | _ => st
  end.

(** The reactions [.then(resolve)], [.catch(reject)] and [.finally(...)]
    run as consecutive microtasks: no timer callback runs between them. *)
Definition step (st : State) (i : Input) : State :=
  match i with
  | TimerFires =>
      match timer st with
      | Armed => settle (Rejected timeout_error) (mkState (wrapped st) Fired)
      | _ => st
      end
  | Settled r => clearTimeout (settle r st)
  end.

Definition run (inputs : list Input) (st : State) : State :=
  fold_left step inputs st.

(** The delay after which [setTimeout(callback, ms)] runs its callback:
    [ms] itself from 1 to 2147483647, and 1 ms for every other [ms]. The
    source hands [ms] to [setTimeout] as it is. *)
Definition timer_delay (ms : Z) : Z :=
  if (ms <? 1) || (ms >? 2147483647) then 1 else ms.

(** The order in which the loop runs the two callbacks, for a task that
    settles [t] ms after the call ([t <= 0] for a promise that has settled
    already, whose reactions run before any timer callback) and a deadline
    of [ms]. [tie] says whether the task's reactions run first when both
    are due together. *)
Definition schedule (tie : bool) (task : option (Z * Outcome T)) (ms : Z)
  : list Input :=
  match task with
  | None => [TimerFires]
  | Some (t, r) =>
      if (t <? timer_delay ms) || ((t =? timer_delay ms) && tie)
      then [Settled r; TimerFires]
      else [TimerFires; Settled r]
  end.

(** [withTimeout(promise, ms, message)]: the settlement of the returned
    promise, and the final state of the timer. *)
Definition withTimeout (tie : bool) (task : option (Z * Outcome T)) (ms : Z)
  : State :=
  run (schedule tie task ms) init.

End Race.

Arguments State : clear implicits.
Arguments Input : clear implicits.

End Timeout.

(** ** Further observations on traces and histories *)

Module Observe.

(** The number of invocations of [fn] in a trace of [retry]. *)
Definition calls (tr : list Retry.Event) : nat :=
  length (filter (fun e => match e with Retry.EvCall => true | _ => false end) tr).

(** The error of a rejected call. *)
Definition error_of {T} (r : Outcome T) : Thrown :=
  match r with
  | Rejected e => e
  | Fulfilled _ => Undefined
  end.

(** The channels whose caller has received an outcome, in order. *)
Definition delivered {Args T} (h : list (RateLimit.Event Args T)) : list nat :=
  flat_map (fun e => match e with
                     | RateLimit.Delivered ch _ => [ch]
                     | _ => []
                     end) h.

(** The arguments of the calls of the dispatcher among the inputs, in
    order. *)
Definition call_args {Args T} (inputs : list (RateLimit.Input Args T)) : list Args :=
  flat_map (fun i => match i with RateLimit.Call a => [a] | _ => [] end) inputs.

(** The queue entries of successive calls, the first on channel [n]. *)
Fixpoint entries_from {Args} (n : nat) (l : list Args) : list (RateLimit.Entry Args) :=
  match l with
  | [] => []
  | a :: l' => RateLimit.mkEntry a n :: entries_from (S n) l'
  end.

(** The calls made so far, with arguments [l], are the invoked ones
    followed by the queued ones, and the callers answered or in flight are
    those of the invoked ones. *)
Definition accounted {Args T} (l : list Args) (st : RateLimit.State Args T) : Prop :=
  RateLimit.invocations (RateLimit.history st) ++ RateLimit.queue st
  = entries_from 0 l /\
  RateLimit.next_channel st = length l /\
  Permutation (delivered (RateLimit.history st) ++ RateLimit.inflight st)
              (map (@RateLimit.channel Args)
                   (RateLimit.invocations (RateLimit.history st))).

(** A trace of [batch] with the groups [gs] and [pause] between two
    consecutive groups. *)
Fixpoint interleave {T} (pause : list (Batch.Event T)) (gs : list (list T))
  : list (Batch.Event T) :=
  match gs with
  | [] => []
  | [g] => [Batch.EvGroup g]
  | g :: gs' => Batch.EvGroup g :: pause ++ interleave pause gs'
  end.

End Observe.

(** ** [formatError] and the Express [errorHandler] *)

Module Format.

Section Details.

(** The type of [details], a [Record<string, any>], and the object [{}]. *)
Context {D : Type}.
Variable empty_object : D.

(** The argument of [formatError]: the value itself, with the [details]
    and [stack] properties it may have. *)
Record ErrorObject : Type := mkErrorObject {
  value : Thrown;
  details : option D;
  stack : option string
}.

(** The object that [formatError] returns; an absent or [undefined]
    property is [None]. *)
Record Formatted : Type := mkFormatted {
  f_message : string;
  f_code : string;
  f_statusCode : Z;
  f_details : option D;
  f_stack : option string
}.

(** [process.env.NODE_ENV === 'development' ? error.stack : undefined] *)
Definition stack_in (env : option string) (e : ErrorObject) : option string :=
  match env with
  | Some v => if String.eqb v "development" then stack e else None
  | None => None
  end.

(** [formatError(error)]. Reading a property of [undefined] throws a
    [TypeError]: the result is [None]. *)
Definition formatError (env : option string) (e : ErrorObject) : option Formatted :=
  match value e with
  | App a =>
      Some {| f_message := message a;
              f_code := code a;
              f_statusCode := statusCode a;
              f_details := Some (match details e with
                                 | Some d => d
                                 | None => empty_object
                                 end);
              f_stack := stack_in env e |}
  | PlainError m =>
      Some {| f_message := or_string (Some m) "Unknown error occurred";
              f_code := "INTERNAL_ERROR";
              f_statusCode := 500;
              f_details := None;
              f_stack := stack_in env e |}
  | Undefined => None
  end.

(** What [errorHandler] sends: [res.status(...)] and the [error] object of
    the JSON body. *)
Record Response : Type := mkResponse {
  status : Z;
  body_message : string;
  body_code : string;
  body_details : option D;
  body_stack : option string
}.

(** [x && { stack: x }] spread into the body: a string is kept when it is
    not empty. *)
Definition truthy_string (s : option string) : option string :=
  match s with
  | Some EmptyString | None => None
  | Some s' => Some s'
  end.

(** [errorHandler(err, req, res, next)]. *)
Definition errorHandler (env : option string) (e : ErrorObject) : option Response :=
  match formatError env e with
  | Some f =>
      Some {| status := or_number (Some (f_statusCode f)) 500;
              body_message := f_message f;
              body_code := f_code f;
              body_details := f_details f;
              body_stack := truthy_string (f_stack f) |}
  | None => None
  end.

End Details.

Arguments ErrorObject : clear implicits.
Arguments Formatted : clear implicits.
Arguments Response : clear implicits.

End Format.


(** * Properties *)

Unset Implicit Arguments.

(** ** [retry] *)

Module RetryFacts.

Import Retry.

Section Loop.

Context {T : Type}.
Variable fn : nat -> Outcome T.
Variable o : Options.

(** The loop returns once it has fuel for the attempts that remain. *)
Lemma retry_loop_total (fuel : nat) :
  forall attempt calls last,
    attempts_of o - attempt + 1 <= Z.of_nat fuel ->
    exists r tr, retry_loop fn o fuel attempt calls last = Some (r, tr).
Proof.
  induction fuel as [|fuel IH]; intros attempt calls last Hfuel; simpl.
  - destruct (Z.leb_spec attempt (attempts_of o)); [lia | eauto].
  - destruct (Z.leb_spec attempt (attempts_of o)); [| eauto].
    destruct (fn calls) as [v | e]; [eauto |].
    destruct (IH (attempt + 1) (S calls) e) as (r & tr & ->); [lia | eauto].
Qed.

(** [retry] settles, each call of the task being settled by [fn]. *)
Lemma retry_total : exists r tr, retry fn o = Some (r, tr).
Proof.
  unfold retry. apply retry_loop_total. lia.
Qed.

(** [k] failed attempts that are not the last one unfold into the events of
    [failed_attempts], and the loop goes on with the next attempt. *)
Lemma retry_loop_failed_attempts (err : nat -> Thrown) (k : nat) :
  forall fuel attempt calls last,
    (forall i, (i < k)%nat -> fn (calls + i) = Rejected (err (calls + i)%nat)) ->
    attempt + Z.of_nat k <= attempts_of o ->
    (k <= fuel)%nat ->
    exists last',
      (k = 0%nat -> last' = last) /\
      (k <> 0%nat -> last' = err (calls + k - 1)%nat) /\
      retry_loop fn o fuel attempt calls last =
      match retry_loop fn o (fuel - k) (attempt + Z.of_nat k) (calls + k) last' with
      | Some (r, tr) => Some (r, failed_attempts o err k attempt calls ++ tr)
      | None => None
      end.
Proof.
  induction k as [|k IH]; intros fuel attempt calls last Hfail Hle Hfuel.
  - exists last. repeat split; [congruence |].
    rewrite Nat.sub_0_r, Nat.add_0_r, Z.add_0_r. simpl.
    destruct (retry_loop fn o fuel attempt calls last) as [[r tr] |]; reflexivity.
  - destruct fuel as [|fuel]; [lia |].
    destruct (IH fuel (attempt + 1) (S calls) (err calls)) as (last' & H0 & HS & Heq).
    + intros i Hi. replace (S calls + i)%nat with (calls + S i)%nat by lia.
      apply Hfail. lia.
    + lia.
    + lia.
    + exists last'. split; [lia |]. split.
      * intros _. destruct k as [|k].
        -- rewrite H0 by reflexivity. f_equal. lia.
        -- rewrite HS by lia. f_equal. lia.
      * cbn [retry_loop].
        destruct (Z.leb_spec attempt (attempts_of o)); [| lia].
        specialize (Hfail 0%nat ltac:(lia)). rewrite Nat.add_0_r in Hfail.
        rewrite Hfail, Heq.
        replace (S fuel - S k)%nat with (fuel - k)%nat by lia.
        replace (attempt + 1 + Z.of_nat k) with (attempt + Z.of_nat (S k)) by lia.
        replace (S calls + k)%nat with (calls + S k)%nat by lia.
        destruct (retry_loop fn o (fuel - k) (attempt + Z.of_nat (S k))
                    (calls + S k) last') as [[r tr] |]; [| reflexivity].
        unfold on_failure.
        destruct (Z.ltb_spec attempt (attempts_of o)); [| lia].
        cbn [failed_attempts]. rewrite <- !app_comm_cons, <- !app_assoc. reflexivity.
Qed.

(** The suspensions of [k] failed attempts. *)
Lemma sleeps_failed_attempts (err : nat -> Thrown) (k : nat) :
  forall attempt calls,
    sleeps (failed_attempts o err k attempt calls) =
    map (fun i => waitTime (backoff_of o) (delay_of o) (attempt + Z.of_nat i))
        (seq 0 k).
Proof.
  induction k as [|k IH]; intros attempt calls; [reflexivity |].
  cbn [failed_attempts seq map]. rewrite <- seq_shift, map_map.
  specialize (IH (attempt + 1) (S calls)).
  unfold sleeps in *. cbn [flat_map app].
  rewrite !flat_map_app. cbn [flat_map app]. rewrite IH. unfold notify.
  destruct (onRetry o); cbn; rewrite Z.add_0_r; f_equal;
    apply map_ext; intros i; f_equal; lia.
Qed.

(** The callback invocations of [k] failed attempts. *)
Lemma onRetry_calls_failed_attempts (err : nat -> Thrown) (k : nat) :
  forall attempt calls,
    onRetry_calls (failed_attempts o err k attempt calls) =
    if onRetry o
    then map (fun i => (attempt + Z.of_nat i, err (calls + i)%nat)) (seq 0 k)
    else [].
Proof.
  induction k as [|k IH]; intros attempt calls.
  - destruct (onRetry o); reflexivity.
  - cbn [failed_attempts seq map]. rewrite <- seq_shift, map_map.
    specialize (IH (attempt + 1) (S calls)).
    unfold onRetry_calls in *. cbn [flat_map app].
    rewrite !flat_map_app. cbn [flat_map app]. rewrite IH. unfold notify.
    destruct (onRetry o); cbn; [| reflexivity].
    rewrite Z.add_0_r, Nat.add_0_r. f_equal.
    apply map_ext; intros i; f_equal; [lia | f_equal; lia].
Qed.

End Loop.

(** A supplied delay other than 0 is the delay of the loop. *)
Lemma delay_of_supplied (a : option Z) (d : Z) (b : option bool) (c : bool) :
  d <> 0 -> delay_of (mkOptions a (Some d) b c) = d.
Proof.
  intros Hd. unfold delay_of, or_number. simpl.
  destruct (Z.eqb_spec d 0); [contradiction | reflexivity].
Qed.

(** C2, where the code departs from the claim: a supplied [delay] of 0 is
    replaced by the default, for every other option ([delay_of] is 1000),
    and [retry] with [delay: 0], [backoff: false] and two attempts, on a
    task that fails once, suspends for 1000 ms between the attempts. *)
Theorem retry_zero_delay_waits_default :
  (forall a b c, delay_of (mkOptions a (Some 0) b c) = 1000) /\
  (forall (T : Type) (v : T) (e : Thrown),
      retry (fun k => match k with O => Rejected e | _ => Fulfilled v end)
            (mkOptions (Some 2) (Some 0) (Some false) false)
      = Some (Fulfilled v, [EvCall; EvSleep 1000; EvCall])).
Proof.
  split; reflexivity.
Qed.

(** C4: when the first [k] attempts fail and [k] is less than [attempts],
    each of them is followed by [onRetry(attempt, error)] (when supplied)
    and then by a suspension of [waitTime], and the next attempt is made;
    the suspension after attempt [i] is [delay * 2^(i-1)] with backoff and
    [delay] without, [delay] being the delay of the loop. With attempts 3,
    backoff, delay 100 and failures [e1], [e2] on attempts 1 and 2, the
    trace is call, [onRetry(1, e1)], 100 ms, call, [onRetry(2, e2)], 200 ms,
    call. *)
Theorem retry_failed_attempt_notifies_then_waits :
  (forall (T : Type) (fn : nat -> Outcome T) (o : Options)
          (err : nat -> Thrown) (k : nat),
      (forall i, (i < k)%nat -> fn i = Rejected (err i)) ->
      Z.of_nat k < attempts_of o ->
      exists r rest,
        retry fn o = Some (r, failed_attempts o err k 1 0 ++ EvCall :: rest) /\
        sleeps (failed_attempts o err k 1 0) =
          map (fun i => if backoff_of o
                        then delay_of o * 2 ^ (1 + Z.of_nat i - 1)
                        else delay_of o) (seq 0 k) /\
        onRetry_calls (failed_attempts o err k 1 0) =
          if onRetry o
          then map (fun i => (1 + Z.of_nat i, err i)) (seq 0 k)
          else []) /\
  (forall (T : Type) (v : T) (e1 e2 : Thrown),
      retry (fun k => match k with
                      | 0%nat => Rejected e1
                      | 1%nat => Rejected e2
                      | _ => Fulfilled v
                      end)
            (mkOptions (Some 3) (Some 100) (Some true) true)
      = Some (Fulfilled v,
              [EvCall; EvOnRetry 1 e1; EvSleep 100;
               EvCall; EvOnRetry 2 e2; EvSleep 200;
               EvCall])).
Proof.
  split; [| reflexivity].
  intros T fn o err k Hfail Hk.
  destruct (retry_loop_failed_attempts fn o err k
              (Z.to_nat (attempts_of o)) 1 0 Undefined)
    as (last' & _ & _ & Heq); [exact Hfail | lia | lia |].
  assert (Hnext : exists r rest,
             retry_loop fn o (Z.to_nat (attempts_of o) - k)%nat (1 + Z.of_nat k)
                        (0 + k)%nat last' = Some (r, EvCall :: rest)).
  { destruct (Z.to_nat (attempts_of o) - k)%nat as [|fuel] eqn:Hfuel; [lia |].
    cbn [retry_loop].
    destruct (Z.leb_spec (1 + Z.of_nat k) (attempts_of o)); [| lia].
    destruct (fn (0 + k)%nat) as [v | e]; [eauto |].
    destruct (retry_loop_total fn o fuel (1 + Z.of_nat k + 1) (S (0 + k)%nat) e)
      as (r & tr & ->); [lia | eauto]. }
  destruct Hnext as (r & rest & Hnext).
  exists r, rest. split; [| split].
  - unfold retry. rewrite Heq, Hnext. reflexivity.
  - apply sleeps_failed_attempts.
  - rewrite onRetry_calls_failed_attempts. reflexivity.
Qed.

Lemma retry_failed_attempt_notifies_then_waits_witness :
  exists r rest,
    retry (fun _ : nat => @Rejected nat (PlainError "down"))
          (mkOptions (Some 4) (Some 50) None true)
    = Some (r, [EvCall; EvOnRetry 1 (PlainError "down"); EvSleep 50;
                EvCall; EvOnRetry 2 (PlainError "down"); EvSleep 100]
               ++ EvCall :: rest).
Proof.
  destruct (proj1 retry_failed_attempt_notifies_then_waits nat
              (fun _ : nat => Rejected (PlainError "down"))
              (mkOptions (Some 4) (Some 50) None true)
              (fun _ : nat => PlainError "down") 2%nat)
    as (r & rest & Hrun & _).
  - reflexivity.
  - reflexivity.
  - exists r, rest. exact Hrun.
Defined.

(** C5: when every attempt fails and there is at least one, [retry] rejects
    with the error of the last call; the trace is the failed attempts but
    the last, each with its callback and suspension, then the last call and
    nothing after it. There are [attempts - 1] suspensions and, when the
    callback is supplied, [attempts - 1] invocations of it. With attempts 2
    and a task that always fails with [e]: call, [onRetry(1, e)], one
    suspension, call, rejection with [e]. *)
Theorem retry_exhaustion_surfaces_last_error :
  (forall (T : Type) (fn : nat -> Outcome T) (o : Options)
          (err : nat -> Thrown),
      1 <= attempts_of o ->
      (forall i, Z.of_nat i < attempts_of o -> fn i = Rejected (err i)) ->
      let n := Z.to_nat (attempts_of o) in
      let tr := failed_attempts o err (n - 1) 1 0 ++ [EvCall] in
      retry fn o = Some (Rejected (err (n - 1)%nat), tr) /\
      length (sleeps tr) = (n - 1)%nat /\
      onRetry_calls tr =
        if onRetry o
        then map (fun i => (1 + Z.of_nat i, err i)) (seq 0 (n - 1))
        else []) /\
  (forall (T : Type) (e : Thrown),
      retry (fun _ : nat => @Rejected T e)
            (mkOptions (Some 2) None None true)
      = Some (Rejected e, [EvCall; EvOnRetry 1 e; EvSleep 1000; EvCall])).
Proof.
  split; [| reflexivity].
  intros T fn o err Hn Hfail n tr.
  destruct (retry_loop_failed_attempts fn o err (n - 1)
              (Z.to_nat (attempts_of o)) 1 0 Undefined)
    as (last' & _ & _ & Heq).
  { intros i Hi. apply Hfail. subst n. lia. }
  { subst n. lia. }
  { subst n. lia. }
  split; [| split].
  - unfold retry. rewrite Heq.
    replace (Z.to_nat (attempts_of o) - (n - 1))%nat with 1%nat by (subst n; lia).
    cbn [retry_loop].
    destruct (Z.leb_spec (1 + Z.of_nat (n - 1)) (attempts_of o)); [| subst n; lia].
    rewrite (Hfail (0 + (n - 1))%nat) by (subst n; lia).
    destruct (Z.leb_spec (1 + Z.of_nat (n - 1) + 1) (attempts_of o)); [subst n; lia |].
    unfold on_failure.
    destruct (Z.ltb_spec (1 + Z.of_nat (n - 1)) (attempts_of o)); [subst n; lia |].
    reflexivity.
  - subst tr. unfold sleeps. rewrite flat_map_app. fold (sleeps (failed_attempts o err (n - 1) 1 0)).
    rewrite sleeps_failed_attempts. cbn [flat_map app].
    rewrite app_nil_r, length_map, length_seq. reflexivity.
  - subst tr. unfold onRetry_calls. rewrite flat_map_app.
    fold (onRetry_calls (failed_attempts o err (n - 1) 1 0)).
    rewrite onRetry_calls_failed_attempts. cbn [flat_map app].
    rewrite app_nil_r. reflexivity.
Qed.

Lemma retry_exhaustion_surfaces_last_error_witness :
  retry (fun k : nat => @Rejected nat (PlainError (if Nat.eqb k 2 then "last" else "early")))
        (mkOptions None (Some 10) (Some false) false)
  = Some (Rejected (PlainError "last"),
          [EvCall; EvSleep 10; EvCall; EvSleep 10; EvCall]).
Proof.
  apply (proj1 retry_exhaustion_surfaces_last_error nat
           (fun k : nat => Rejected (PlainError (if Nat.eqb k 2 then "last" else "early")))
           (mkOptions None (Some 10) (Some false) false)
           (fun k : nat => PlainError (if Nat.eqb k 2 then "last" else "early"))).
  - unfold attempts_of, or_number. simpl. lia.
  - intros i _. reflexivity.
Defined.

End RetryFacts.

(** ** [rateLimit] *)

Module RateLimitFacts.

Import RateLimit.

Section Dispatcher.

Context {Args T : Type}.
Variable maxCalls : Z.

Local Abbreviation State := (State Args T).
Local Abbreviation Input := (Input Args T).
Local Abbreviation Event := (Event Args T).

Ltac fields :=
  cbn [queue callsMade interval inflight next_channel history] in *.

Lemma invoked_in_window_snoc (h : list Event) (e : Event) :
  invoked_in_window (h ++ [e]) =
  match e with
  | Invoked _ => invoked_in_window h + 1
  | WindowReset => 0
  | Delivered _ _ => invoked_in_window h
  end.
Proof.
  unfold invoked_in_window. rewrite fold_left_app. reflexivity.
Qed.

Lemma invocations_snoc (h : list Event) (e : Event) :
  invocations (h ++ [e]) =
  invocations h ++ match e with Invoked x => [x] | _ => [] end.
Proof.
  unfold invocations. rewrite flat_map_app. cbn [flat_map].
  rewrite app_nil_r. reflexivity.
Qed.

(** What one drain attempt does: nothing, or the admission of the head. *)
Lemma processQueue_cases (st : State) :
  (processQueue maxCalls st = st /\
   (queue st = [] \/ maxCalls <= callsMade st)) \/
  (exists e rest,
      queue st = e :: rest /\ callsMade st < maxCalls /\
      processQueue maxCalls st =
      mkState rest (callsMade st + 1) (interval st)
              (inflight st ++ [channel e]) (next_channel st)
              (history st ++ [Invoked e])).
Proof.
  unfold processQueue. destruct (queue st) as [|e rest]; [auto |].
  destruct (Z.geb_spec (callsMade st) maxCalls) as [H | H].
  - left. split; [reflexivity | right; lia].
  - right. exists e, rest. auto.
Qed.

Lemma processQueue_consistent (st : State) :
  interval st = true ->
  consistent maxCalls st -> consistent maxCalls (processQueue maxCalls st).
Proof.
  intros Hint (Hcount & Hbound & Hidle).
  destruct (processQueue_cases st) as [[-> _] | (e & rest & _ & Hlt & ->)].
  - repeat split; tauto.
  - unfold consistent; fields.
    rewrite invoked_in_window_snoc, Hcount.
    repeat split; try lia; congruence.
Qed.

Lemma step_consistent (st : State) (i : Input) :
  0 <= maxCalls ->
  consistent maxCalls st -> consistent maxCalls (step maxCalls st i).
Proof.
  intros Hmax Hst. pose proof Hst as (Hcount & Hbound & Hidle).
  destruct i as [a | | ch r]; cbn [step].
  - unfold dispatcher. apply processQueue_consistent; [reflexivity |].
    unfold consistent; fields. repeat split; try tauto; discriminate.
  - unfold resetCalls. destruct (interval st) eqn:Hint; [| exact Hst].
    apply processQueue_consistent; [reflexivity |].
    unfold consistent; fields. rewrite invoked_in_window_snoc.
    repeat split; try lia; congruence.
  - unfold resume. destruct (existsb (Nat.eqb ch) (inflight st)) eqn:Hin; [| exact Hst].
    assert (Hint : interval st = true).
    { destruct (interval st); [reflexivity |].
      destruct (Hidle eq_refl) as (_ & Hnone & _).
      rewrite Hnone in Hin. discriminate. }
    match goal with |- consistent _ (match queue ?m with _ => _ end) =>
      assert (Hmid : consistent maxCalls m);
      [| destruct (queue m);
         [exact Hmid | apply processQueue_consistent; [exact Hint | exact Hmid]]]
    end.
    unfold consistent; fields. rewrite invoked_in_window_snoc.
    repeat split; try tauto; congruence.
Qed.

Lemma run_consistent (inputs : list Input) :
  forall st, 0 <= maxCalls ->
    consistent maxCalls st -> consistent maxCalls (run maxCalls inputs st).
Proof.
  induction inputs as [|i inputs IH]; intros st Hmax Hst; [exact Hst |].
  cbn [run fold_left]. apply IH; [exact Hmax |].
  apply step_consistent; assumption.
Qed.

Lemma init_consistent : 0 <= maxCalls -> consistent maxCalls (@init Args T).
Proof.
  intros Hmax. unfold consistent; cbn. repeat split; lia.
Qed.

(** A step of the machine hands at most one entry to [fn]. *)
Lemma step_invokes_at_most_one (st : State) (i : Input) :
  invocations (history (step maxCalls st i)) = invocations (history st) \/
  exists e, invocations (history (step maxCalls st i)) =
            invocations (history st) ++ [e].
Proof.
  destruct i as [a | | ch r]; cbn [step].
  - unfold dispatcher.
    match goal with |- context [processQueue _ ?s] =>
      destruct (processQueue_cases s) as [[-> _] | (e & rest & _ & _ & ->)] end.
    + left. reflexivity.
    + right. exists e. fields. apply invocations_snoc.
  - unfold resetCalls. destruct (interval st); [| left; reflexivity].
    match goal with |- context [processQueue _ ?s] =>
      destruct (processQueue_cases s) as [[-> _] | (e & rest & _ & _ & ->)] end.
    + left. fields. rewrite invocations_snoc, app_nil_r. reflexivity.
    + right. exists e. fields. rewrite !invocations_snoc, app_nil_r. reflexivity.
  - unfold resume. destruct (existsb (Nat.eqb ch) (inflight st)); [| left; reflexivity].
    cbn [queue]. destruct (queue st) eqn:Hq.
    + left. fields. rewrite invocations_snoc, app_nil_r. reflexivity.
    + match goal with |- context [processQueue _ ?s] =>
        destruct (processQueue_cases s) as [[-> _] | (e' & rest & _ & _ & ->)] end.
      * left. fields. rewrite invocations_snoc, app_nil_r. reflexivity.
      * right. exists e'. fields. rewrite !invocations_snoc, app_nil_r. reflexivity.
Qed.

(** Calls and settlements leave no call waiting while the window has
    budget, when there was none before. *)
Lemma step_drained (st : State) (i : Input) :
  is_tick i = false ->
  drained maxCalls st -> drained maxCalls (step maxCalls st i).
Proof.
  intros Hi Hst. destruct i as [a | | ch r]; [| discriminate |]; cbn [step].
  - unfold dispatcher.
    match goal with |- context [processQueue _ ?s] =>
      destruct (processQueue_cases s) as [[-> Hd] | (e & rest & Hq & Hlt & ->)] end.
    + cbn in Hd. destruct Hd as [Hd | Hd]; [| right; exact Hd].
      destruct (queue st); discriminate.
    + cbn in Hq, Hlt. destruct Hst as [Hst | Hst]; [| lia].
      rewrite Hst in Hq. injection Hq as _ <-. left. reflexivity.
  - unfold resume. destruct (existsb (Nat.eqb ch) (inflight st)); [| exact Hst].
    cbn [queue]. destruct (queue st) eqn:Hq.
    + left. reflexivity.
    + destruct Hst as [Hst | Hst]; [congruence |].
      match goal with |- context [processQueue _ ?s] =>
        destruct (processQueue_cases s) as [[-> Hd] | (e' & rest & _ & Hlt & ->)] end.
      * right. exact Hst.
      * cbn in Hlt. lia.
Qed.

Lemma run_cons (i : Input) (inputs : list Input) (st : State) :
  run maxCalls (i :: inputs) st = run maxCalls inputs (step maxCalls st i).
Proof. reflexivity. Qed.

Lemma run_app (l1 l2 : list Input) (st : State) :
  run maxCalls (l1 ++ l2) st = run maxCalls l2 (run maxCalls l1 st).
Proof. unfold run. apply fold_left_app. Qed.

(** A burst of calls that fits the budget, on an empty queue: every call
    is handed to [fn] when it is made, in order, and none of the
    invocations already in flight is waited for. *)
Lemma burst_invoked (l : list Args) :
  forall st : State,
    queue st = [] ->
    callsMade st + Z.of_nat (length l) <= maxCalls ->
    let st' := run maxCalls (map Call l) st in
    let entries :=
      map (fun p => mkEntry (fst p) (snd p))
          (combine l (seq (next_channel st) (length l))) in
    queue st' = [] /\
    invocations (history st') = invocations (history st) ++ entries /\
    inflight st' = inflight st ++ map channel entries /\
    callsMade st' = callsMade st + Z.of_nat (length l).
Proof.
  induction l as [|a l IH]; intros st Hq Hfit; cbn zeta.
  - cbn. rewrite !app_nil_r. repeat split; [exact Hq | lia].
  - cbn [map]. rewrite run_cons. cbn [step].
    assert (Hstep : dispatcher maxCalls a st =
              mkState [] (callsMade st + 1) true
                      (inflight st ++ [next_channel st]) (S (next_channel st))
                      (history st ++ [Invoked (mkEntry a (next_channel st))])).
    { unfold dispatcher, processQueue. cbn. rewrite Hq. cbn.
      destruct (Z.geb_spec (callsMade st) maxCalls) as [H | H]; [| reflexivity].
      cbn [length] in Hfit. lia. }
    rewrite Hstep.
    specialize (IH (mkState [] (callsMade st + 1) true
                      (inflight st ++ [next_channel st]) (S (next_channel st))
                      (history st ++ [Invoked (mkEntry a (next_channel st))]))).
    cbn zeta in IH. cbn [queue callsMade next_channel history inflight] in IH.
    destruct IH as (H1 & H2 & H3 & H4); [reflexivity | cbn [length] in Hfit; lia |].
    rewrite H1, H2, H3, H4. cbn [length seq combine map fst snd channel].
    rewrite invocations_snoc, <- !app_assoc. cbn [app].
    repeat split. lia.
Qed.

End Dispatcher.

(** C3 as stated fails. With [maxCalls = 2], four calls are made, the two
    admitted ones settle, and the window timer fires: the tick admits the
    third call only. The fourth stays queued although the new window has
    budget left, and it is handed to [fn] when the third call, still in
    flight, settles. *)
Lemma queued_call_waits_for_inflight_call :
  let st := run 2 [Call 10; Call 11; Call 12; Call 13;
                   Settled 0%nat (Fulfilled 0); Settled 1%nat (Fulfilled 0);
                   Tick] (@init Z Z) in
  ~ drained 2 st /\
  queue st = [mkEntry 13 3] /\
  callsMade st = 1 /\
  inflight st = [2%nat] /\
  invocations (history st) = [mkEntry 10 0; mkEntry 11 1; mkEntry 12 2] /\
  invocations (history (step 2 st (Settled 2%nat (Fulfilled 0)))) =
    [mkEntry 10 0; mkEntry 11 1; mkEntry 12 2; mkEntry 13 3].
Proof.
  cbv zeta. repeat split; try reflexivity.
  intros [H | H]; [discriminate H | vm_compute in H; apply H; reflexivity].
Qed.

(** C3, amended: calls made on an empty queue while the budget of the
    window lasts are handed to [fn] when they are made, in order, whatever
    is still in flight; calls and settlements never leave a call waiting
    while the window has budget; and every step of the dispatcher (a call,
    a tick, a settlement) admits at most one queued call. *)
Theorem burst_within_budget_invoked_at_once :
  forall (Args T : Type) (maxCalls : Z),
    (forall (st : State Args T) (l : list Args),
        queue st = [] ->
        callsMade st + Z.of_nat (length l) <= maxCalls ->
        let st' := run maxCalls (map Call l) st in
        let entries :=
          map (fun p => mkEntry (fst p) (snd p))
              (combine l (seq (next_channel st) (length l))) in
        queue st' = [] /\
        invocations (history st') = invocations (history st) ++ entries /\
        inflight st' = inflight st ++ map channel entries /\
        callsMade st' = callsMade st + Z.of_nat (length l)) /\
    (forall (st : State Args T) (i : Input Args T),
        is_tick i = false ->
        drained maxCalls st -> drained maxCalls (step maxCalls st i)) /\
    (forall (st : State Args T) (i : Input Args T),
        invocations (history (step maxCalls st i)) = invocations (history st) \/
        exists e, invocations (history (step maxCalls st i)) =
                  invocations (history st) ++ [e]).
Proof.
  intros Args T maxCalls. split; [| split].
  - intros st l. apply burst_invoked.
  - intros st i. apply step_drained.
  - intros st i. apply step_invokes_at_most_one.
Qed.

Lemma burst_within_budget_invoked_at_once_witness :
  let st' := run 3 (map Call [7; 8; 9]) (@init Z Z) in
  queue st' = [] /\
  invocations (history st') = [mkEntry 7 0; mkEntry 8 1; mkEntry 9 2] /\
  inflight st' = [0; 1; 2]%nat /\
  callsMade st' = 3.
Proof.
  apply (proj1 (burst_within_budget_invoked_at_once Z Z 3) init [7; 8; 9]).
  - reflexivity.
  - cbn. lia.
Defined.

(** C8: in every state that a sequence of calls, ticks and settlements
    reaches, [callsMade] is at most [maxCalls] and is the number of
    invocations of [fn] since the last tick; a tick restarts the count from
    0, so that after it [callsMade] is the number of calls the tick itself
    admitted, and 0 when the queue was empty. *)
Theorem callsMade_within_budget_and_reset_by_tick :
  forall (Args T : Type) (maxCalls : Z) (inputs : list (Input Args T)),
    0 <= maxCalls ->
    let st := run maxCalls inputs init in
    let st' := step maxCalls st Tick in
    0 <= callsMade st <= maxCalls /\
    callsMade st = invoked_in_window (history st) /\
    callsMade st' =
      Z.of_nat (length (invocations (history st')))
      - Z.of_nat (length (invocations (history st))) /\
    (queue st = [] -> callsMade st' = 0).
Proof.
  intros Args T maxCalls inputs Hmax st st'.
  assert (Hst : consistent maxCalls st).
  { apply run_consistent; [exact Hmax | apply init_consistent; exact Hmax]. }
  destruct Hst as (Hcount & Hbound & Hidle).
  split; [exact Hbound |]. split; [exact Hcount |].
  subst st'. cbn [step]. unfold resetCalls.
  destruct (interval st) eqn:Hint.
  - match goal with |- context [processQueue _ ?s] =>
      destruct (processQueue_cases maxCalls s)
        as [[-> Hd] | (e & rest & Hq & _ & ->)] end.
    + cbn [callsMade history]. rewrite invocations_snoc, app_nil_r.
      split; [lia | reflexivity].
    + cbn [callsMade history queue] in *.
      rewrite !invocations_snoc, app_nil_r, length_app. cbn [length].
      split; [lia | congruence].
  - destruct (Hidle eq_refl) as (_ & _ & Hzero). split; [lia | intros _; exact Hzero].
Qed.

Lemma callsMade_within_budget_and_reset_by_tick_witness :
  let st := run 2 [Call 1; Call 2; Call 3; Tick; Call 4] (@init Z Z) in
  0 <= callsMade st <= 2 /\
  callsMade st = invoked_in_window (history st).
Proof.
  destruct (callsMade_within_budget_and_reset_by_tick Z Z 2
              [Call 1; Call 2; Call 3; Tick; Call 4])
    as (Hbound & Hcount & _).
  - lia.
  - split; [exact Hbound | exact Hcount].
Defined.

End RateLimitFacts.

(** ** [withCancel] *)

Module CancelFacts.

Import Cancel.

Section Handle.

Context {T : Type}.

(** Once settled, the returned promise keeps its settlement. *)
Lemma run_settled_stable (post : list (Input T)) :
  forall (st : State T) (r : Outcome T),
    wrapped st = Some r -> wrapped (run post st) = Some r.
Proof.
  induction post as [|i post IH]; intros st r Hst; [exact Hst |].
  cbn [run fold_left]. apply IH.
  destruct i as [| [v | e]]; cbn [step wrapped]; unfold settle;
    try destruct (isCancelled st); rewrite ?Hst; try reflexivity; exact Hst.
Qed.

(** Calls of [cancel] on a pending promise set the flag and nothing else. *)
Lemma run_cancel_calls (pre : list (Input T)) :
  forall st : State T,
    Forall (fun i => i = CancelCall) pre ->
    pre <> [] ->
    run pre st = mkState true (wrapped st).
Proof.
  induction pre as [|i pre IH]; intros st Hall Hne; [congruence |].
  inversion Hall as [|? ? Hi Hpre]; subst. cbn [run fold_left step].
  destruct pre as [|j pre]; [reflexivity |].
  fold (run (j :: pre) (mkState true (wrapped st))).
  rewrite IH; [reflexivity | exact Hpre | discriminate].
Qed.

End Handle.

(** C1 as stated fails: [cancel()] is called, then the underlying promise
    rejects with an error that has no code; the returned promise rejects
    with that error, whose classification is not CANCELLED. *)
Lemma cancel_before_failure_keeps_error :
  @withCancel Z [CancelCall; Settled (Rejected (PlainError "boom"))]
  = Some (Rejected (PlainError "boom")) /\
  classification (PlainError "boom") <> Some "CANCELLED"%string.
Proof.
  split; [reflexivity | discriminate].
Qed.

(** C1, amended: when [cancel()] has been called before the settlement of
    the underlying promise is observed, the returned promise rejects with
    the CANCELLED error if the underlying promise is fulfilled, and with
    the underlying error if it is rejected; nothing that happens later
    changes that. *)
Theorem cancel_masks_fulfilment :
  forall (T : Type) (pre post : list (Input T)) (r : Outcome T),
    Forall (fun i => i = CancelCall) pre ->
    pre <> [] ->
    withCancel (pre ++ Settled r :: post) =
      Some (match r with
            | Fulfilled _ => Rejected cancelled_error
            | Rejected e => Rejected e
            end) /\
    classification cancelled_error = Some "CANCELLED"%string.
Proof.
  intros T pre post r Hall Hne. split; [| reflexivity].
  unfold withCancel, run. rewrite fold_left_app.
  fold (run pre (@init T)). rewrite (run_cancel_calls pre init Hall Hne).
  cbn [fold_left]. fold (run post).
  apply run_settled_stable. destruct r; reflexivity.
Qed.

Lemma cancel_masks_fulfilment_witness :
  withCancel ([CancelCall; CancelCall] ++ Settled (Fulfilled 5) :: [CancelCall])
  = Some (Rejected cancelled_error) /\
  classification cancelled_error = Some "CANCELLED"%string.
Proof.
  apply (cancel_masks_fulfilment Z [CancelCall; CancelCall] [CancelCall]
           (Fulfilled 5)).
  - repeat constructor.
  - discriminate.
Defined.

End CancelFacts.

(** ** [batch] *)

Module BatchFacts.

Import Batch.

Section Slices.

Context {T : Type}.

(** On the indices of the loop, [slice] is [firstn] after [skipn]. *)
Lemma slice_firstn_skipn (l : list T) (k n : nat) :
  slice l (Z.of_nat k) (Z.of_nat k + Z.of_nat n) = firstn n (skipn k l).
Proof.
  unfold slice, relative_index.
  destruct (Z.ltb_spec (Z.of_nat k) 0); [lia |].
  destruct (Z.ltb_spec (Z.of_nat k + Z.of_nat n) 0); [lia |].
  destruct (Nat.le_gt_cases k (length l)) as [Hk | Hk].
  - rewrite (Z.min_l (Z.of_nat k)) by lia. rewrite Nat2Z.id.
    destruct (Nat.le_gt_cases (k + n) (length l)) as [Hn | Hn].
    + rewrite Z.min_l by lia. f_equal. lia.
    + rewrite Z.min_r by lia.
      replace (Z.to_nat (Z.of_nat (length l) - Z.of_nat k))
        with (length (skipn k l)) by (rewrite length_skipn; lia).
      rewrite firstn_all. symmetry. apply firstn_all2.
      rewrite length_skipn. lia.
  - rewrite !Z.min_r by lia. rewrite Z.sub_diag.
    rewrite (skipn_all2 (n := k) l) by lia. cbn. now rewrite firstn_nil.
Qed.

Lemma chunks_loop_fuel (n : nat) :
  (1 <= n)%nat ->
  forall f1 f2 (l : list T),
    (length l <= f1)%nat -> (length l <= f2)%nat ->
    chunks_loop f1 n l = chunks_loop f2 n l.
Proof.
  intros Hn. induction f1 as [|f1 IH]; intros f2 l H1 H2.
  - destruct l; [| cbn in H1; lia]. destruct f2; reflexivity.
  - destruct l as [|x l]; [destruct f2; reflexivity |].
    destruct f2 as [|f2]; [cbn in H2; lia |].
    cbn [chunks_loop]. f_equal. apply IH.
    + rewrite length_skipn. cbn [length] in *. lia.
    + rewrite length_skipn. cbn [length] in *. lia.
Qed.

Lemma chunks_nil (n : nat) : chunks n (@nil T) = [].
Proof. reflexivity. Qed.

Lemma chunks_unfold (n : nat) (l : list T) :
  (1 <= n)%nat -> l <> [] ->
  chunks n l = firstn n l :: chunks n (skipn n l).
Proof.
  intros Hn Hl. unfold chunks. destruct l as [|x l]; [congruence |].
  cbn [length chunks_loop]. f_equal.
  apply chunks_loop_fuel; [exact Hn | |]; rewrite ?length_skipn; cbn [length]; lia.
Qed.

(** The groups of [chunks] are contiguous and cover the list, and all but
    the last one are full. *)
Lemma chunks_spec (n : nat) :
  (1 <= n)%nat ->
  forall (f : nat) (l : list T),
    (length l <= f)%nat ->
    concat (chunks n l) = l /\ well_grouped n (chunks n l).
Proof.
  intros Hn. induction f as [|f IH]; intros l Hf.
  - destruct l; [| cbn in Hf; lia]. split; [reflexivity | exact I].
  - destruct l as [|x l]; [split; [reflexivity | exact I] |].
    rewrite chunks_unfold by (auto; discriminate).
    destruct (IH (skipn n (x :: l))) as (Hcat & Hwg).
    { rewrite length_skipn. cbn [length] in *. lia. }
    split.
    + cbn [concat]. rewrite Hcat. apply firstn_skipn.
    + cbn [well_grouped].
      destruct (chunks n (skipn n (x :: l))) as [|g gs] eqn:Hrest.
      * rewrite length_firstn. cbn [length]. lia.
      * split; [| exact Hwg].
        rewrite length_firstn. apply Nat.min_l.
        destruct (Nat.le_gt_cases n (length (x :: l))) as [H | H]; [exact H |].
        rewrite skipn_all2 in Hrest by lia. discriminate.
Qed.

End Slices.

Section Processor.

Context {T R : Type}.
Variable processor : T -> Settlement R.

(** [Promise.all] finds no rejection exactly when every promise is
    fulfilled. *)
Lemma first_rejection_none (ps : list (Settlement R)) :
  first_rejection ps = None <->
  Forall (fun p => is_rejected (outcome p) = false) ps.
Proof.
  induction ps as [|p ps IH]; [split; [constructor | reflexivity] |].
  cbn [first_rejection]. destruct (outcome p) as [v | e] eqn:Hp.
  - rewrite IH. split.
    + intros H. constructor; [rewrite Hp; reflexivity | exact H].
    + intros H. inversion H; assumption.
  - split.
    + destruct (first_rejection ps) as [[t' e'] |];
        [destruct (after p <=? t') |]; discriminate.
    + intros H. inversion H as [|? ? Hrej _]. rewrite Hp in Hrej. discriminate.
Qed.

(** [Promise.all] rejects with the rejection that settles first. *)
Lemma first_rejection_some (ps : list (Settlement R)) :
  forall t e,
    first_rejection ps = Some (t, e) ->
    exists p, In p ps /\ outcome p = Rejected e /\ after p = t /\
              forall q, In q ps -> is_rejected (outcome q) = true -> t <= after q.
Proof.
  induction ps as [|p ps IH]; intros t e H; [discriminate |].
  cbn [first_rejection] in H.
  destruct (outcome p) as [v | e0] eqn:Hp.
  - destruct (IH t e H) as (p' & Hin & Hout & Haft & Hmin).
    exists p'. repeat split; auto; [right; exact Hin |].
    intros q [<- | Hq] Hrej; [rewrite Hp in Hrej; discriminate | auto].
  - destruct (first_rejection ps) as [[t' e'] |] eqn:Hps.
    + destruct (IH t' e' eq_refl) as (p' & Hin & Hout & Haft & Hmin).
      destruct (Z.leb_spec (after p) t') as [Hle | Hgt]; inversion H; subst.
      * exists p. repeat split; auto; [left; reflexivity |].
        intros q [<- | Hq] Hrej; [lia |]. specialize (Hmin q Hq Hrej). lia.
      * exists p'. repeat split; auto; [right; exact Hin |].
        intros q [<- | Hq] Hrej; [lia | auto].
    + inversion H; subst. exists p. repeat split; auto; [left; reflexivity |].
      intros q [<- | Hq] Hrej; [lia |].
      apply first_rejection_none in Hps. rewrite Forall_forall in Hps.
      rewrite (Hps q Hq) in Hrej. discriminate.
Qed.

Lemma values_fulfilled (f : T -> R) (g : list T) :
  (forall x, In x g -> outcome (processor x) = Fulfilled (f x)) ->
  values (map processor g) = map f g.
Proof.
  induction g as [|x g IH]; intros H; [reflexivity |].
  unfold values in *. cbn [map flat_map].
  rewrite (H x (or_introl eq_refl)), IH; [reflexivity |].
  intros y Hy. apply H. right. exact Hy.
Qed.

Lemma values_app (ps qs : list (Settlement R)) :
  values (ps ++ qs) = values ps ++ values qs.
Proof. unfold values. apply flat_map_app. Qed.

(** The two ways in which [Promise.all] settles. *)
Lemma promise_all_cases (g : list T) :
  (promise_all (map processor g) = Fulfilled (values (map processor g)) /\
   Forall (succeeds processor) g) \/
  (exists e y, promise_all (map processor g) = Rejected e /\
               In y g /\ outcome (processor y) = Rejected e /\
               forall z, In z g -> is_rejected (outcome (processor z)) = true ->
                         after (processor y) <= after (processor z)).
Proof.
  unfold promise_all.
  destruct (first_rejection (map processor g)) as [[t e] |] eqn:Hfr.
  - right. destruct (first_rejection_some _ _ _ Hfr) as (p & Hin & Hout & Haft & Hmin).
    apply in_map_iff in Hin. destruct Hin as (y & <- & Hy).
    exists e, y. repeat split; auto.
    intros z Hz Hrej. rewrite Haft. apply Hmin; [apply in_map; exact Hz | exact Hrej].
  - left. split; [reflexivity |].
    apply first_rejection_none in Hfr. rewrite Forall_forall in *.
    intros x Hx. apply Hfr. apply in_map. exact Hx.
Qed.

Variable items : list T.
Variable o : Options.

Local Abbreviation n := (group_size o).

(** What the loop computes from index [k] on, given fuel for the items
    that remain: either every remaining item succeeds, and the results are
    their values in order after one group per chunk, or the loop stops at
    the first chunk with a rejection. *)
Lemma batch_loop_spec (fuel : nat) :
  1 <= size_of o ->
  forall (k : nat) (results : list R),
    (length (skipn k items) <= fuel)%nat ->
    exists r tr,
      batch_loop items processor o fuel (Z.of_nat k) results = Some (r, tr) /\
      ((r = Fulfilled (results ++ values (map processor (skipn k items))) /\
        Forall (succeeds processor) (skipn k items) /\
        groups tr = chunks n (skipn k items)) \/
       (exists e pre g post y,
           r = Rejected e /\
           chunks n (skipn k items) = pre ++ g :: post /\
           groups tr = pre ++ [g] /\
           Forall (succeeds processor) (concat pre) /\
           In y g /\ outcome (processor y) = Rejected e /\
           (forall z, In z g -> is_rejected (outcome (processor z)) = true ->
                      after (processor y) <= after (processor z)))).
Proof.
  intros Hsize. assert (Hn : (1 <= n)%nat) by (unfold group_size; lia).
  induction fuel as [|fuel IH]; intros k results Hfuel.
  - assert (Hnil : skipn k items = []) by (destruct (skipn k items); [reflexivity | cbn in Hfuel; lia]).
    assert (Hk : (length items <= k)%nat).
    { pose proof (length_skipn k items) as Hl. rewrite Hnil in Hl. cbn in Hl. lia. }
    cbn [batch_loop]. destruct (Z.ltb_spec (Z.of_nat k) (Z.of_nat (length items))); [lia |].
    exists (Fulfilled results), []. split; [reflexivity |]. left.
    rewrite Hnil. cbn. rewrite app_nil_r. repeat split. constructor.
  - cbn [batch_loop].
    destruct (Z.ltb_spec (Z.of_nat k) (Z.of_nat (length items))) as [Hlt | Hge].
    + assert (Hne : skipn k items <> []).
      { intros Hnil. pose proof (length_skipn k items) as Hl.
        rewrite Hnil in Hl. cbn in Hl. lia. }
      replace (size_of o) with (Z.of_nat n) by (unfold group_size; lia).
      rewrite slice_firstn_skipn.
      rewrite (chunks_unfold n (skipn k items) Hn Hne).
      set (rest := skipn k items) in *.
      set (group := firstn n rest).
      assert (Hrest : skipn (k + n) items = skipn n rest).
      { subst rest. rewrite skipn_skipn. f_equal. lia. }
      destruct (promise_all_cases group) as [[Hall Hok] | (e & y & Hall & Hy & Hout & Hmin)];
        rewrite Hall.
      * destruct (IH (k + n)%nat (results ++ values (map processor group)))
          as (r & tr & Hrun & Hspec).
        { rewrite Hrest, length_skipn. lia. }
        rewrite <- Nat2Z.inj_add, Hrun.
        eexists _, _. split; [reflexivity |].
        assert (Hgroups : forall pause : list (Event T),
                   pause = [] \/ (exists d, pause = [EvSleep d]) ->
                   groups (EvGroup group :: pause ++ tr) = group :: groups tr).
        { intros pause [-> | (d & ->)]; reflexivity. }
        rewrite Hgroups
          by (destruct ((delay_of o >? 0) && (Z.of_nat (k + n) <? Z.of_nat (length items)));
              [right; eauto | left; reflexivity]).
        rewrite Hrest in Hspec.
        destruct Hspec as [(Hr & Hsucc & Hg) |
                           (e & pre & g & post & y & Hr & Hch & Hg & Hpre & Hrej)].
        -- left. repeat split.
           ++ rewrite Hr, <- app_assoc, <- values_app, <- map_app.
              unfold group. rewrite firstn_skipn. reflexivity.
           ++ rewrite <- (firstn_skipn n rest). apply Forall_app. split; assumption.
           ++ rewrite Hg. reflexivity.
        -- right. exists e, (group :: pre), g, post, y. repeat split; try tauto.
           ++ rewrite Hch. reflexivity.
           ++ rewrite Hg. reflexivity.
           ++ cbn [concat]. apply Forall_app. split; assumption.
      * eexists _, _. split; [reflexivity |]. right.
        exists e, [], group, (chunks n (skipn n rest)), y.
        repeat split; auto.
    + assert (Hnil : skipn k items = []) by (apply skipn_all2; lia).
      exists (Fulfilled results), []. split; [reflexivity |]. left.
      rewrite Hnil. cbn. rewrite app_nil_r. repeat split. constructor.
Qed.

End Processor.

(** C6: with a group size of at least 1 and a processor that succeeds on
    every item, [batch] returns the results of the items in the order of
    the input; the groups it hands to [Promise.all], one after the other,
    are the contiguous chunks of the input, all of the group size but
    possibly the last. On [1..7] with size 3 and a doubling processor the
    result is [2,4,6,8,10,12,14] and the groups are [1,2,3], [4,5,6], [7]. *)
Theorem batch_results_in_input_order :
  (forall (T R : Type) (items : list T) (f : T -> R)
          (processor : T -> Settlement R) (o : Options),
      1 <= size_of o ->
      (forall x, In x items -> outcome (processor x) = Fulfilled (f x)) ->
      exists tr,
        batch items processor o = Some (Fulfilled (map f items), tr) /\
        groups tr = chunks (group_size o) items /\
        concat (groups tr) = items /\
        well_grouped (group_size o) (groups tr)) /\
  batch [1; 2; 3; 4; 5; 6; 7]
        (fun x => mkSettlement (10 - x) (Fulfilled (2 * x)))
        (mkOptions (Some 3) None None)
  = Some (Fulfilled [2; 4; 6; 8; 10; 12; 14],
          [EvGroup [1; 2; 3]; EvGroup [4; 5; 6]; EvGroup [7]]).
Proof.
  split; [| reflexivity].
  intros T R items f processor o Hsize Hok.
  assert (Hn : (1 <= group_size o)%nat) by (unfold group_size; lia).
  destruct (chunks_spec (group_size o) Hn (length items) items (le_n _))
    as (Hcat & Hwg).
  destruct (batch_loop_spec processor items o (length items) Hsize 0 [])
    as (r & tr & Hrun & [(Hr & _ & Hg) |
                         (e & pre & g & post & y & _ & Hch & _ & _ & Hy & Hrej & _)]).
  { cbn [skipn]. lia. }
  - cbn [skipn Z.of_nat] in *. exists tr. unfold batch. rewrite Hrun, Hr, Hg.
    rewrite (values_fulfilled processor f items Hok).
    repeat split; assumption.
  - cbn [skipn] in Hch. exfalso.
    assert (Hin : In y items).
    { rewrite <- Hcat, Hch. apply in_concat. exists g.
      split; [apply in_elt | exact Hy]. }
    rewrite (Hok y Hin) in Hrej. discriminate.
Qed.

Lemma batch_results_in_input_order_witness :
  exists tr,
    batch ["a"; "b"; "c"]%string
          (fun x => mkSettlement 5 (Fulfilled (String.length x)))
          (mkOptions (Some 2) (Some 30) None)
    = Some (Fulfilled (map String.length ["a"; "b"; "c"]%string), tr) /\
    groups tr = [["a"; "b"]; ["c"]]%string.
Proof.
  destruct (proj1 batch_results_in_input_order string nat
              ["a"; "b"; "c"]%string String.length
              (fun x => mkSettlement 5 (Fulfilled (String.length x)))
              (mkOptions (Some 2) (Some 30) None))
    as (tr & Hrun & Hg & _).
  - unfold size_of, or_number. simpl. lia.
  - intros x _. reflexivity.
  - exists tr. split; [exact Hrun | exact Hg].
Defined.

(** C7: with a group size of at least 1, when the processor fails on some
    item, [batch] rejects: no list of results is returned. The groups
    handed to [Promise.all] are the chunks of the input up to the first one
    that holds a failing item, and none after it; the error is that of an
    item of this chunk, the one whose rejection settles first. When all the
    failing items fail with one error, this is the error of [batch]. *)
Theorem batch_fails_with_first_rejection :
  forall (T R : Type) (items : list T) (processor : T -> Settlement R)
         (o : Options) (x : T) (ex : Thrown),
    1 <= size_of o ->
    In x items ->
    outcome (processor x) = Rejected ex ->
    exists e tr pre g post y,
      batch items processor o = Some (Rejected e, tr) /\
      chunks (group_size o) items = pre ++ g :: post /\
      groups tr = pre ++ [g] /\
      Forall (succeeds processor) (concat pre) /\
      In y g /\ outcome (processor y) = Rejected e /\
      (forall z, In z g -> is_rejected (outcome (processor z)) = true ->
                 after (processor y) <= after (processor z)) /\
      ((forall z ez, In z items -> outcome (processor z) = Rejected ez ->
                     ez = ex) -> e = ex).
Proof.
  intros T R items processor o x ex Hsize Hx Hfail.
  assert (Hn : (1 <= group_size o)%nat) by (unfold group_size; lia).
  destruct (chunks_spec (group_size o) Hn (length items) items (le_n _))
    as (Hcat & _).
  destruct (batch_loop_spec processor items o (length items) Hsize 0 [])
    as (r & tr & Hrun & [(_ & Hall & _) |
                         (e & pre & g & post & y & Hr & Hch & Hg & Hpre & Hy & Hrej & Hmin)]).
  { cbn [skipn]. lia. }
  - cbn [skipn] in Hall. rewrite Forall_forall in Hall.
    specialize (Hall x Hx). unfold succeeds in Hall.
    rewrite Hfail in Hall. discriminate.
  - cbn [skipn Z.of_nat] in *. exists e, tr, pre, g, post, y.
    unfold batch. rewrite Hrun, Hr. repeat split; try assumption.
    intros Hsame. apply (Hsame y e); [| exact Hrej].
    rewrite <- Hcat, Hch. apply in_concat. exists g.
    split; [apply in_elt | exact Hy].
Qed.

Lemma batch_fails_with_first_rejection_witness :
  exists tr,
    batch [1; 2; 3; 4; 5]
          (fun x => mkSettlement x
                      (if x =? 3 then Rejected (PlainError "three")
                       else Fulfilled x))
          (mkOptions (Some 2) None None)
    = Some (Rejected (PlainError "three"), tr).
Proof.
  destruct (batch_fails_with_first_rejection Z Z [1; 2; 3; 4; 5]
              (fun x => mkSettlement x
                          (if x =? 3 then Rejected (PlainError "three")
                           else Fulfilled x))
              (mkOptions (Some 2) None None) 3 (PlainError "three"))
    as (e & tr & pre & g & post & y & Hrun & _ & _ & _ & _ & _ & _ & Hsame).
  - unfold size_of, or_number. simpl. lia.
  - simpl. tauto.
  - reflexivity.
  - exists tr. rewrite Hrun, Hsame; [reflexivity |].
    intros z ez Hz. simpl in Hz.
    destruct Hz as [<- | [<- | [<- | [<- | [<- | []]]]]]; simpl; congruence.
Defined.

(** C10: on the empty list, whatever the options and the fuel of the loop,
    [batch] returns the empty list of results, and its trace is empty: the
    processor is not invoked and there is no pause. *)
Theorem batch_empty_input :
  forall (T R : Type) (processor : T -> Settlement R) (o : Options),
    batch [] processor o = Some (Fulfilled [], []) /\
    forall fuel, batch_loop [] processor o fuel 0 [] = Some (Fulfilled [], []).
Proof.
  intros T R processor o. split; [reflexivity |].
  intros [|fuel]; reflexivity.
Qed.

End BatchFacts.

(** ** [withTimeout] *)

Module TimeoutFacts.

Import Timeout.

Section Race.

Context {T : Type}.
Variable message : string.

(** After the task's reactions have run first, nothing changes the state. *)
Lemma run_settled_cleared (rest : list (Input T)) :
  forall r : Outcome T,
    run message rest (mkState (Some r) Cleared) = mkState (Some r) Cleared.
Proof.
  induction rest as [|i rest IH]; intros r; [reflexivity |].
  cbn [run fold_left]. destruct i as [| r']; cbn; apply IH.
Qed.

End Race.

Lemma timer_delay_in_range (ms : Z) :
  1 <= ms <= 2147483647 -> timer_delay ms = ms.
Proof.
  intros Hms. unfold timer_delay.
  destruct (Z.ltb_spec ms 1); [lia |].
  destruct (Z.gtb_spec ms 2147483647); [lia | reflexivity].
Qed.

(** C9 as stated fails. With [ms = 2147483648] the timer is due after
    1 ms: a task that is fulfilled 50 ms after the call, long before [ms],
    loses against the timer, whichever callback the loop prefers in a tie,
    and the returned promise is rejected with the timeout error. *)
Lemma timeout_beyond_timer_range :
  50 < 2147483648 /\
  withTimeout "Operation timed out" true (Some (50, Fulfilled 7)) 2147483648
  = @mkState Z
      (Some (Rejected (App (mkAppError "Operation timed out" "TIMEOUT" 408 true))))
      Fired /\
  withTimeout "Operation timed out" false (Some (50, Fulfilled 7)) 2147483648
  = @mkState Z
      (Some (Rejected (App (mkAppError "Operation timed out" "TIMEOUT" 408 true))))
      Fired.
Proof.
  split; [lia |]. split; reflexivity.
Qed.

(** C9, amended: when the task settles before the deadline timer is due,
    the reactions on it run before the timer callback: the returned promise
    settles as the task did, fulfilled or rejected, and the timer is
    cleared, so that its callback never runs. The timer is due after [ms]
    milliseconds for [ms] from 1 to 2147483647, and after 1 ms otherwise.
    The same holds for every run in which the reactions on the task come
    first, whatever the loop runs afterwards. *)
Theorem withTimeout_settled_before_deadline :
  forall (T : Type) (message : string) (r : Outcome T),
    (forall (tie : bool) (t ms : Z),
        t < timer_delay ms ->
        withTimeout message tie (Some (t, r)) ms = mkState (Some r) Cleared) /\
    (forall (tie : bool) (t ms : Z),
        1 <= ms <= 2147483647 ->
        t < ms ->
        withTimeout message tie (Some (t, r)) ms = mkState (Some r) Cleared) /\
    (forall rest : list (Input T),
        run message (Settled r :: rest) init = mkState (Some r) Cleared).
Proof.
  intros T message r.
  assert (Hdue : forall (tie : bool) (t ms : Z),
             t < timer_delay ms ->
             withTimeout message tie (Some (t, r)) ms = mkState (Some r) Cleared).
  { intros tie t ms Hlt. unfold withTimeout, schedule.
    destruct (Z.ltb_spec t (timer_delay ms)); [| lia]. reflexivity. }
  split; [exact Hdue |]. split.
  - intros tie t ms Hms Hlt. apply Hdue.
    rewrite (timer_delay_in_range ms Hms). exact Hlt.
  - intros rest. cbn [run fold_left]. apply run_settled_cleared.
Qed.

Lemma withTimeout_settled_before_deadline_witness :
  withTimeout "Operation timed out" false
    (Some (50, Rejected (PlainError "task failed"))) 100
  = @mkState Z (Some (Rejected (PlainError "task failed"))) Cleared.
Proof.
  apply (proj1 (proj2 (withTimeout_settled_before_deadline Z "Operation timed out"
                         (Rejected (PlainError "task failed"))))).
  - lia.
  - lia.
Defined.

End TimeoutFacts.

(** * Further properties of the combinators *)

(** ** [retry] *)

Module RetryMore.

Import Retry Observe RetryFacts.

Section Loop.

Context {T : Type}.
Variable fn : nat -> Outcome T.
Variable o : Options.

Lemma calls_cons_call (tr : list Event) : calls (EvCall :: tr) = S (calls tr).
Proof. reflexivity. Qed.

Lemma calls_app (tr1 tr2 : list Event) : calls (tr1 ++ tr2) = (calls tr1 + calls tr2)%nat.
Proof. unfold calls. rewrite filter_app, length_app. reflexivity. Qed.

Lemma calls_on_failure (attempt : Z) (e : Thrown) : calls (on_failure o attempt e) = 0%nat.
Proof.
  unfold on_failure, notify.
  destruct (attempt <? attempts_of o), (onRetry o); reflexivity.
Qed.

(** The shape of every run of the loop from [attempt] on: how many calls
    it makes, which suspensions and callbacks separate them, and where its
    outcome comes from. *)
Lemma retry_loop_shape (fuel : nat) :
  forall attempt c last r tr,
    retry_loop fn o fuel attempt c last = Some (r, tr) ->
    (attempt <= attempts_of o -> (1 <= calls tr)%nat) /\
    Z.of_nat (calls tr) <= Z.max 0 (attempts_of o - attempt + 1) /\
    sleeps tr =
      map (fun i => waitTime (backoff_of o) (delay_of o) (attempt + Z.of_nat i))
          (seq 0 (pred (calls tr))) /\
    onRetry_calls tr =
      (if onRetry o
       then map (fun i => (attempt + Z.of_nat i,
                           match fn (c + i) with
                           | Rejected e => e
                           | Fulfilled _ => Undefined
                           end))
                (seq 0 (pred (calls tr)))
       else []) /\
    (forall i, (i < pred (calls tr))%nat -> is_rejected (fn (c + i)%nat) = true) /\
    r = match calls tr with
        | O => Rejected last
        | S j => fn (c + j)%nat
        end.
Proof.
  induction fuel as [|fuel IH]; intros attempt c last r tr Hrun; cbn [retry_loop] in Hrun.
  - destruct (Z.leb_spec attempt (attempts_of o)); [discriminate |].
    inversion Hrun; subst. cbn.
    repeat split; try lia; try (destruct (onRetry o); reflexivity).
  - destruct (Z.leb_spec attempt (attempts_of o)) as [Hle | Hgt].
    + destruct (fn c) as [v | e] eqn:Hfn.
      * inversion Hrun; subst. cbn.
        repeat split; try lia; try (destruct (onRetry o); reflexivity).
        rewrite Nat.add_0_r. symmetry. exact Hfn.
      * destruct (retry_loop fn o fuel (attempt + 1) (S c) e) as [[r' tr'] |] eqn:Hrec;
          [| discriminate].
        inversion Hrun; subst r tr. clear Hrun.
        destruct (IH _ _ _ _ _ Hrec) as (Hpos & Hbound & Hsl & Hon & Hrej & Hout).
        rewrite calls_cons_call, calls_app, calls_on_failure. cbn [Nat.add pred].
        unfold on_failure.
        destruct (Z.ltb_spec attempt (attempts_of o)) as [Hlt | Hlast].
        -- specialize (Hpos ltac:(lia)).
           destruct (calls tr') as [|j] eqn:Hj; [lia |]. cbn [pred] in *.
           split; [intros _; lia |]. split; [lia |].
           split; [| split; [| split]].
           ++ unfold sleeps in *. cbn [flat_map]. rewrite !flat_map_app. cbn [flat_map app].
              rewrite Hsl. unfold notify. destruct (onRetry o); cbn [flat_map app seq map].
              ** rewrite Z.add_0_r. f_equal. rewrite <- seq_shift, map_map.
                 apply map_ext. intros i. f_equal. lia.
              ** rewrite Z.add_0_r. f_equal. rewrite <- seq_shift, map_map.
                 apply map_ext. intros i. f_equal. lia.
           ++ unfold onRetry_calls in *. cbn [flat_map]. rewrite !flat_map_app. cbn [flat_map app].
              rewrite Hon. unfold notify. destruct (onRetry o); cbn [flat_map app seq map]; [| reflexivity].
              rewrite Z.add_0_r, Nat.add_0_r, Hfn. f_equal.
              rewrite <- seq_shift, map_map.
              apply map_ext. intros i. rewrite Nat.add_succ_r. f_equal. lia.
           ++ intros i Hi. destruct i as [|i].
              ** rewrite Nat.add_0_r, Hfn. reflexivity.
              ** rewrite Nat.add_succ_r. apply (Hrej i). lia.
           ++ rewrite Hout. rewrite Nat.add_succ_r. reflexivity.
        -- assert (Hzero : calls tr' = 0%nat) by lia.
           rewrite Hzero in *. cbn [pred seq map] in *.
           split; [intros _; lia |]. split; [lia |].
           split; [| split; [| split]].
           ++ unfold sleeps in *. cbn [flat_map app]. exact Hsl.
           ++ unfold onRetry_calls in *. cbn [flat_map app]. rewrite Hon.
              destruct (onRetry o); reflexivity.
           ++ intros i Hi. lia.
           ++ rewrite Hout, Nat.add_0_r. symmetry. exact Hfn.
    + inversion Hrun; subst. cbn.
      repeat split; try lia; try (destruct (onRetry o); reflexivity).
Qed.

(** The trace of every run of the loop from [attempt] on, event by event:
    nothing when no call is made, and otherwise the failed attempts, each
    one followed by its callback and its suspension, then the last call. *)
Lemma retry_loop_trace (fuel : nat) :
  forall attempt c last r tr,
    retry_loop fn o fuel attempt c last = Some (r, tr) ->
    tr = match calls tr with
         | O => []
         | S j => failed_attempts o (fun i => error_of (fn i)) j attempt c
                  ++ [EvCall]
         end.
Proof.
  induction fuel as [|fuel IH]; intros attempt c last r tr Hrun;
    pose proof (retry_loop_shape _ _ _ _ _ _ Hrun) as Hshape;
    cbn [retry_loop] in Hrun.
  - destruct (Z.leb_spec attempt (attempts_of o)); [discriminate |].
    inversion Hrun; subst. reflexivity.
  - destruct (Z.leb_spec attempt (attempts_of o)) as [Hle | Hgt];
      [| inversion Hrun; subst; reflexivity].
    destruct (fn c) as [v | e] eqn:Hfn; [inversion Hrun; subst; reflexivity |].
    destruct (retry_loop fn o fuel (attempt + 1) (S c) e) as [[r' tr'] |] eqn:Hrec;
      [| discriminate].
    inversion Hrun; subst r tr. clear Hrun Hshape.
    pose proof (IH _ _ _ _ _ Hrec) as Htr'.
    destruct (retry_loop_shape _ _ _ _ _ _ Hrec) as (Hpos & Hbound & _).
    rewrite calls_cons_call, calls_app, calls_on_failure. cbn [Nat.add].
    unfold on_failure.
    destruct (Z.ltb_spec attempt (attempts_of o)) as [Hlt | Hlast].
    + specialize (Hpos ltac:(lia)).
      destruct (calls tr') as [|j] eqn:Hj; [lia |].
      cbn [failed_attempts]. unfold error_of at 1. rewrite Hfn.
      rewrite Htr' at 1. rewrite <- !app_comm_cons, <- !app_assoc. reflexivity.
    + assert (Hzero : calls tr' = 0%nat) by lia.
      rewrite Hzero in *. rewrite Htr'. reflexivity.
Qed.

End Loop.

(** Success ends the loop: when the first [k] calls fail, call [k + 1]
    succeeds and [k] is less than [attempts], [retry] is fulfilled with the
    value of that call, after the [k] failed attempts with their callbacks
    and suspensions; nothing follows the successful call. *)
Theorem retry_returns_first_success :
  forall (T : Type) (fn : nat -> Outcome T) (o : Options)
         (err : nat -> Thrown) (k : nat) (v : T),
    (forall i, (i < k)%nat -> fn i = Rejected (err i)) ->
    fn k = Fulfilled v ->
    Z.of_nat k < attempts_of o ->
    retry fn o = Some (Fulfilled v, failed_attempts o err k 1 0 ++ [EvCall]).
Proof.
  intros T fn o err k v Hfail Hok Hk.
  destruct (retry_loop_failed_attempts fn o err k
              (Z.to_nat (attempts_of o)) 1 0 Undefined)
    as (last' & _ & _ & Heq); [exact Hfail | lia | lia |].
  unfold retry. rewrite Heq.
  destruct (Z.to_nat (attempts_of o) - k)%nat as [|fuel] eqn:Hfuel; [lia |].
  cbn [retry_loop].
  destruct (Z.leb_spec (1 + Z.of_nat k) (attempts_of o)); [| lia].
  cbn [Nat.add]. rewrite Hok. reflexivity.
Qed.

Lemma retry_returns_first_success_witness :
  retry (fun k : nat => if Nat.eqb k 1 then Fulfilled 42 else Rejected (PlainError "busy"))
        (mkOptions None (Some 20) None false)
  = Some (Fulfilled 42, [EvCall; EvSleep 20; EvCall]).
Proof.
  apply (retry_returns_first_success Z
           (fun k : nat => if Nat.eqb k 1 then Fulfilled 42 else Rejected (PlainError "busy"))
           (mkOptions None (Some 20) None false)
           (fun _ : nat => PlainError "busy") 1%nat 42).
  - intros i Hi. destruct i as [|i]; [reflexivity | lia].
  - reflexivity.
  - reflexivity.
Defined.

(** Every run of [retry] on a task whose calls all settle, fulfilled or
    rejected ([fn] gives the settlement of each call): [fn] is called at
    most [attempts] times, and the trace is, event by event, every call but
    the last one followed by the callback, when supplied, with the number
    of the attempt and its error, and then by one suspension of [waitTime]
    of that attempt, and after them the last call. So there is exactly one
    suspension between two consecutive calls and none before the first
    call or after the last one; the lists of the suspensions and of the
    callback invocations follow. *)
Theorem retry_call_budget_and_delays :
  forall (T : Type) (fn : nat -> Outcome T) (o : Options),
  exists r tr,
    retry fn o = Some (r, tr) /\
    (calls tr <= Z.to_nat (attempts_of o))%nat /\
    tr = match calls tr with
         | O => []
         | S j => failed_attempts o (fun i => error_of (fn i)) j 1 0 ++ [EvCall]
         end /\
    sleeps tr =
      map (fun i => if backoff_of o
                    then delay_of o * 2 ^ (1 + Z.of_nat i - 1)
                    else delay_of o)
          (seq 0 (pred (calls tr))) /\
    onRetry_calls tr =
      (if onRetry o
       then map (fun i => (1 + Z.of_nat i,
                           match fn i with
                           | Rejected e => e
                           | Fulfilled _ => Undefined
                           end))
                (seq 0 (pred (calls tr)))
       else []).
Proof.
  intros T fn o. destruct (retry_total fn o) as (r & tr & Hrun).
  exists r, tr. split; [exact Hrun |].
  destruct (retry_loop_shape fn o _ _ _ _ _ _ Hrun)
    as (_ & Hbound & Hsl & Hon & _ & _).
  split; [lia |]. split; [| split; [exact Hsl | exact Hon]].
  exact (retry_loop_trace fn o _ _ _ _ _ _ Hrun).
Qed.

(** The outcome of [retry] is the settlement of the last call it made, and
    every call before the last one was rejected: an earlier error is never
    surfaced and a success is never followed by another call. *)
Theorem retry_outcome_is_last_call :
  forall (T : Type) (fn : nat -> Outcome T) (o : Options),
    1 <= attempts_of o ->
    exists r tr j,
      retry fn o = Some (r, tr) /\
      calls tr = S j /\
      r = fn j /\
      forall i, (i < j)%nat -> is_rejected (fn i) = true.
Proof.
  intros T fn o Hn. destruct (retry_total fn o) as (r & tr & Hrun).
  destruct (retry_loop_shape fn o _ _ _ _ _ _ Hrun)
    as (Hpos & _ & _ & _ & Hrej & Hout).
  specialize (Hpos ltac:(lia)).
  destruct (calls tr) as [|j] eqn:Hj; [lia |].
  exists r, tr, j. repeat split; [exact Hrun | exact Hj | exact Hout | exact Hrej].
Qed.

Lemma retry_outcome_is_last_call_witness :
  exists r tr j,
    retry (fun k : nat => if Nat.eqb k 2 then Fulfilled 7 else Rejected Undefined)
          (mkOptions (Some 5) None None false) = Some (r, tr) /\
    calls tr = S j /\
    r = (if Nat.eqb j 2 then Fulfilled 7 else Rejected Undefined).
Proof.
  destruct (retry_outcome_is_last_call Z
              (fun k : nat => if Nat.eqb k 2 then Fulfilled 7 else Rejected Undefined)
              (mkOptions (Some 5) None None false))
    as (r & tr & j & Hrun & Hcalls & Hout & _).
  - unfold attempts_of, or_number. simpl. lia.
  - exists r, tr, j. repeat split; assumption.
Defined.

(** With one attempt there is one call and nothing else: [retry] settles as
    that call does, without callback or suspension. *)
Theorem retry_single_attempt :
  forall (T : Type) (fn : nat -> Outcome T) (o : Options),
    attempts_of o = 1 ->
    retry fn o = Some (fn 0%nat, [EvCall]).
Proof.
  intros T fn o H1. unfold retry. rewrite H1.
  change (Z.to_nat 1) with 1%nat. cbn [retry_loop].
  unfold on_failure. rewrite !H1. cbn.
  destruct (fn 0%nat) as [v | e]; reflexivity.
Qed.

Lemma retry_single_attempt_witness :
  retry (fun _ : nat => @Rejected Z (PlainError "once"))
        (mkOptions (Some 1) None None true)
  = Some (Rejected (PlainError "once"), [EvCall]).
Proof.
  apply (retry_single_attempt Z (fun _ : nat => Rejected (PlainError "once"))
           (mkOptions (Some 1) None None true)).
  reflexivity.
Defined.

(** A negative [attempts] makes no attempt at all: [fn] is never called
    and [retry] rejects with [undefined], the initial [lastError]. *)
Theorem retry_negative_attempts_rejects_undefined :
  forall (T : Type) (fn : nat -> Outcome T) (a : Z) (d : option Z)
         (b : option bool) (c : bool),
    a < 0 ->
    retry fn (mkOptions (Some a) d b c) = Some (Rejected Undefined, []).
Proof.
  intros T fn a d b c Ha. unfold retry.
  assert (Hatt : attempts_of (mkOptions (Some a) d b c) = a).
  { unfold attempts_of, or_number. cbn. destruct (Z.eqb_spec a 0); [lia | reflexivity]. }
  rewrite Hatt. replace (Z.to_nat a) with 0%nat by lia.
  cbn [retry_loop]. rewrite Hatt.
  destruct (Z.leb_spec 1 a); [lia | reflexivity].
Qed.

Lemma retry_negative_attempts_rejects_undefined_witness :
  retry (fun _ : nat => Fulfilled 1) (mkOptions (Some (-2)) None None true)
  = Some (Rejected Undefined, []).
Proof.
  apply (retry_negative_attempts_rejects_undefined Z (fun _ : nat => Fulfilled 1)
           (-2) None None true).
  lia.
Defined.

End RetryMore.

(** ** [withTimeout] *)

Module TimeoutMore.

Import Timeout.

Section Race.

Context {T : Type}.
Variable message : string.

(** Once the timer callback has run first, nothing changes the state. *)
Lemma run_timed_out (rest : list (Input T)) :
  run message rest (mkState (Some (Rejected (timeout_error message))) Fired)
  = mkState (Some (Rejected (timeout_error message))) Fired.
Proof.
  induction rest as [|i rest IH]; [reflexivity |].
  cbn [run fold_left]. destruct i as [| r]; cbn; exact IH.
Qed.

End Race.

(** When the timer callback runs before the reactions on the task, the
    returned promise is rejected with an [AppError] that carries the given
    message, the code TIMEOUT, the status 408 and the operational flag; the
    settlement of the task, when it is observed later, does not change
    that. The same rejection is what a task that never settles gets,
    whatever the deadline. *)
Theorem withTimeout_deadline_first :
  forall (T : Type) (message : string),
    let timed_out :=
      @mkState T (Some (Rejected (App (mkAppError message "TIMEOUT" 408 true))))
               Fired in
    (forall rest : list (Input T),
        run message (TimerFires :: rest) init = timed_out) /\
    (forall (tie : bool) (ms : Z), withTimeout message tie None ms = timed_out).
Proof.
  intros T message timed_out. split.
  - intros rest. cbn [run fold_left]. apply run_timed_out.
  - intros tie ms. reflexivity.
Qed.

(** Whatever the task does and whenever, the returned promise settles,
    either as the task did or with the timeout error, and the timer is not
    left armed. *)
Theorem withTimeout_always_settles :
  forall (T : Type) (message : string) (tie : bool)
         (task : option (Z * Outcome T)) (ms : Z),
    let st := withTimeout message tie task ms in
    timer st <> Armed /\
    (wrapped st = Some (Rejected (timeout_error message)) \/
     exists t r, task = Some (t, r) /\ wrapped st = Some r).
Proof.
  intros T message tie task ms st. subst st. unfold withTimeout, schedule.
  destruct task as [[t r] |].
  - destruct ((t <? timer_delay ms) || ((t =? timer_delay ms) && tie)); cbn.
    + split; [discriminate | right; eauto].
    + split; [discriminate | left; reflexivity].
  - cbn. split; [discriminate | left; reflexivity].
Qed.

End TimeoutMore.

(** ** [withCancel] *)

Module CancelMore.

Import Cancel CancelFacts.

(** Without a call of [cancel] before the settlement of the underlying
    promise, the returned promise settles as the underlying one, fulfilled
    or rejected; a call of [cancel] after that has no effect. *)
Theorem withCancel_passes_through :
  forall (T : Type) (r : Outcome T) (post : list (Input T)),
    withCancel (Settled r :: post) = Some r.
Proof.
  intros T r post. unfold withCancel. cbn [run fold_left].
  apply run_settled_stable. destruct r; reflexivity.
Qed.

(** Cancellation alone settles nothing: the returned promise is pending
    exactly as long as the underlying promise has not settled, however
    often [cancel] is called. *)
Theorem withCancel_pending_until_settlement :
  forall (T : Type) (inputs : list (Input T)),
    withCancel inputs = None <-> Forall (fun i => i = CancelCall) inputs.
Proof.
  intros T inputs. unfold withCancel.
  assert (Hgen : forall st : State T,
             wrapped st = None ->
             (wrapped (run inputs st) = None <->
              Forall (fun i => i = CancelCall) inputs)).
  { induction inputs as [|i inputs IH]; intros st Hst.
    - split; [constructor | intros _; exact Hst].
    - change (run (i :: inputs) st) with (run inputs (step st i)).
      destruct i as [| r].
      + rewrite (IH (step st CancelCall)) by exact Hst.
        split; [intros H; constructor; [reflexivity | exact H] |].
        intros H. inversion H; assumption.
      + assert (Hsome : exists r', wrapped (step st (Settled r)) = Some r').
        { destruct r; cbn [step]; unfold settle; try destruct (isCancelled st);
            rewrite Hst; cbn; eauto. }
        destruct Hsome as (r' & Hr').
        rewrite (run_settled_stable inputs _ r' Hr').
        split; [discriminate |].
        intros H. inversion H as [|? ? Hi _]. discriminate Hi. }
  apply Hgen. reflexivity.
Qed.

End CancelMore.

(** ** [rateLimit] *)

Module RateLimitMore.

Import RateLimit Observe RateLimitFacts.

Section Dispatcher.

Context {Args T : Type}.
Variable maxCalls : Z.

Local Abbreviation State := (State Args T).
Local Abbreviation Input := (Input Args T).
Local Abbreviation Event := (Event Args T).

Ltac fields :=
  cbn [queue callsMade interval inflight next_channel history] in *.

Lemma entries_from_snoc (l : list Args) (a : Args) :
  forall n, entries_from n (l ++ [a]) = entries_from n l ++ [mkEntry a (n + length l)].
Proof.
  induction l as [|b l IH]; intros n; cbn [app entries_from length].
  - rewrite Nat.add_0_r. reflexivity.
  - rewrite IH. cbn [app].
    replace (n + S (length l))%nat with (S n + length l)%nat by lia. reflexivity.
Qed.

Lemma entries_from_length (l : list Args) :
  forall n, length (entries_from n l) = length l.
Proof.
  induction l as [|b l IH]; intros n; cbn; [reflexivity | now rewrite IH].
Qed.

Lemma entries_from_channels (l : list Args) :
  forall n, map channel (entries_from n l) = seq n (length l).
Proof.
  induction l as [|b l IH]; intros n; cbn; [reflexivity | now rewrite IH].
Qed.

Lemma delivered_snoc (h : list Event) (e : Event) :
  delivered (h ++ [e]) =
  delivered h ++ match e with Delivered ch _ => [ch] | _ => [] end.
Proof.
  unfold delivered. rewrite flat_map_app. cbn [flat_map].
  rewrite app_nil_r. reflexivity.
Qed.

Lemma processQueue_accounted (l : list Args) (st : State) :
  accounted l st -> accounted l (processQueue maxCalls st).
Proof.
  intros (Hord & Hnext & Hperm).
  destruct (processQueue_cases maxCalls st) as [[-> _] | (e & rest & Hq & _ & ->)].
  - repeat split; assumption.
  - unfold accounted; fields. rewrite invocations_snoc, delivered_snoc.
    rewrite Hq in Hord. rewrite <- app_assoc. cbn [app].
    repeat split; [exact Hord | exact Hnext |].
    rewrite app_nil_r, map_app, app_assoc. cbn [map].
    apply Permutation_app_tail. exact Hperm.
Qed.

Lemma NoDup_remove_one (c : nat) (l : list nat) :
  NoDup l -> In c l ->
  Permutation l (c :: filter (fun x => negb (Nat.eqb c x)) l).
Proof.
  induction l as [|x l IH]; intros Hnd Hin; [contradiction |].
  inversion Hnd as [|? ? Hx Hl]; subst. cbn [filter].
  destruct (Nat.eqb_spec c x) as [-> | Hne]; cbn [negb].
  - apply perm_skip.
    assert (Hid : filter (fun y => negb (Nat.eqb x y)) l = l).
    { apply forallb_filter_id. apply forallb_forall. intros y Hy.
      destruct (Nat.eqb_spec x y) as [-> | _]; [contradiction | reflexivity]. }
    rewrite Hid. reflexivity.
  - destruct Hin as [-> | Hin]; [congruence |].
    rewrite perm_swap. apply perm_skip. apply IH; assumption.
Qed.

Lemma step_accounted (l : list Args) (st : State) (i : Input) :
  accounted l st ->
  accounted (l ++ call_args [i]) (step maxCalls st i).
Proof.
  intros Hst. pose proof Hst as (Hord & Hnext & Hperm).
  destruct i as [a | | ch r]; cbn [step call_args flat_map app];
    rewrite ?app_nil_r.
  - unfold dispatcher. apply processQueue_accounted.
    unfold accounted; fields.
    rewrite entries_from_snoc, app_assoc, Hord, Hnext, length_app. cbn [length].
    repeat split; [lia | exact Hperm].
  - unfold resetCalls. destruct (interval st); [| exact Hst].
    apply processQueue_accounted. unfold accounted; fields.
    rewrite invocations_snoc, delivered_snoc, !app_nil_r. repeat split; assumption.
  - unfold resume. destruct (existsb (Nat.eqb ch) (inflight st)) eqn:Hin; [| exact Hst].
    match goal with |- accounted _ (match queue ?m with _ => _ end) =>
      assert (Hmid : accounted l m);
      [| destruct (queue m);
         [exact Hmid | apply processQueue_accounted; exact Hmid]]
    end.
    unfold accounted; fields.
    rewrite invocations_snoc, delivered_snoc, app_nil_r.
    repeat split; [exact Hord | exact Hnext |].
    rewrite <- Hperm, <- app_assoc. apply Permutation_app_head. cbn [app].
    symmetry. apply NoDup_remove_one.
    + assert (Hnd : NoDup (delivered (history st) ++ inflight st)).
      { apply (Permutation_NoDup (Permutation_sym Hperm)).
        assert (Hall : NoDup (map channel (invocations (history st) ++ queue st))).
        { rewrite Hord, entries_from_channels. apply seq_NoDup. }
        rewrite map_app in Hall. apply NoDup_app_remove_r in Hall. exact Hall. }
      apply NoDup_app_remove_l in Hnd. exact Hnd.
    + apply existsb_exists in Hin. destruct Hin as (x & Hx & Heq).
      apply Nat.eqb_eq in Heq. subst x. exact Hx.
Qed.

Lemma run_accounted (inputs : list Input) :
  forall (l : list Args) (st : State),
    accounted l st ->
    accounted (l ++ call_args inputs) (run maxCalls inputs st).
Proof.
  induction inputs as [|i inputs IH]; intros l st Hst.
  - cbn. rewrite app_nil_r. exact Hst.
  - rewrite run_cons.
    replace (call_args (i :: inputs)) with (call_args [i] ++ call_args inputs)
      by (unfold call_args; cbn [flat_map]; now rewrite app_nil_r).
    rewrite app_assoc. apply IH. apply step_accounted. exact Hst.
Qed.

Lemma init_accounted : accounted [] (@init Args T).
Proof.
  unfold accounted; cbn. repeat split. constructor.
Qed.

(** While no window tick occurs, [callsMade] counts all the invocations. *)
Lemma dispatcher_counts (a : Args) (st : State) :
  callsMade st = Z.of_nat (length (invocations (history st))) ->
  callsMade (dispatcher maxCalls a st)
  = Z.of_nat (length (invocations (history (dispatcher maxCalls a st)))).
Proof.
  intros Hst. unfold dispatcher.
  match goal with |- context [processQueue _ ?s] =>
    destruct (processQueue_cases maxCalls s) as [[-> _] | (e & rest & _ & _ & ->)] end.
  - exact Hst.
  - fields. rewrite invocations_snoc, length_app. cbn [length]. lia.
Qed.

End Dispatcher.

(** Calls are served in the order of their arrival, each with its own
    arguments: after any sequence of calls, ticks and settlements, the
    entries handed to the producer followed by the entries still queued are
    the calls made so far, in order, numbered from 0. No call is dropped,
    none is handed over twice or out of turn. *)
Theorem dispatcher_serves_in_arrival_order :
  forall (Args T : Type) (maxCalls : Z) (inputs : list (Input Args T)),
    let st := run maxCalls inputs init in
    invocations (history st) ++ queue st = entries_from 0 (call_args inputs) /\
    next_channel st = length (call_args inputs).
Proof.
  intros Args T maxCalls inputs st.
  destruct (run_accounted maxCalls inputs [] init init_accounted) as (H1 & H2 & _).
  split; assumption.
Qed.

(** Every call made so far is in exactly one of three places: answered
    (its caller's promise settled), in flight, or queued. In particular no
    caller is answered twice, and none before its call was handed to the
    producer. *)
Theorem dispatcher_accounts_for_every_call :
  forall (Args T : Type) (maxCalls : Z) (inputs : list (Input Args T)),
    let st := run maxCalls inputs init in
    Permutation (delivered (history st) ++ inflight st ++ map channel (queue st))
                (seq 0 (next_channel st)) /\
    NoDup (delivered (history st) ++ inflight st ++ map channel (queue st)).
Proof.
  intros Args T maxCalls inputs st.
  destruct (run_accounted maxCalls inputs [] init init_accounted) as (H1 & H2 & H3).
  fold st in H1, H2, H3. cbn [app] in *.
  assert (Hperm : Permutation
            (delivered (history st) ++ inflight st ++ map channel (queue st))
            (seq 0 (next_channel st))).
  { rewrite app_assoc, H3, <- map_app, H1, entries_from_channels, H2. reflexivity. }
  split; [exact Hperm |].
  apply (Permutation_NoDup (Permutation_sym Hperm)). apply seq_NoDup.
Qed.

(** A burst of calls on a fresh dispatcher: the first [maxCalls] of them
    are handed to the producer at once and are in flight together, the
    others wait in the queue in the order of their arrival. *)
Theorem burst_beyond_budget_is_queued :
  forall (Args T : Type) (maxCalls : Z) (l : list Args),
    0 <= maxCalls ->
    let st := run maxCalls (map (@Call Args T) l) init in
    invocations (history st) = firstn (Z.to_nat maxCalls) (entries_from 0 l) /\
    queue st = skipn (Z.to_nat maxCalls) (entries_from 0 l) /\
    callsMade st = Z.min maxCalls (Z.of_nat (length l)).
Proof.
  intros Args T maxCalls l Hmax st.
  assert (Hargs : call_args (map (@Call Args T) l) = l).
  { induction l as [|a l IH]; [reflexivity |]. cbn. unfold call_args in IH.
    rewrite IH. reflexivity. }
  destruct (run_accounted maxCalls (map (@Call Args T) l) [] init init_accounted)
    as (Hord & _ & _).
  fold st in Hord. cbn [app] in Hord. rewrite Hargs in Hord.
  assert (Hinv : callsMade st = Z.of_nat (length (invocations (history st))) /\
                 drained maxCalls st /\ consistent maxCalls st).
  { subst st. clear Hord Hargs.
    assert (Hgen : forall s : State Args T,
               callsMade s = Z.of_nat (length (invocations (history s))) ->
               drained maxCalls s -> consistent maxCalls s ->
               let s' := run maxCalls (map (@Call Args T) l) s in
               callsMade s' = Z.of_nat (length (invocations (history s'))) /\
               drained maxCalls s' /\ consistent maxCalls s').
    { induction l as [|a l IH]; intros s Hc Hd Hk; cbn zeta; [auto |].
      cbn [map]. rewrite run_cons. apply IH.
      - apply dispatcher_counts. exact Hc.
      - apply step_drained; [reflexivity | exact Hd].
      - apply step_consistent; [exact Hmax | exact Hk]. }
    apply Hgen; [reflexivity | left; reflexivity | apply init_consistent; exact Hmax]. }
  destruct Hinv as (Hcount & Hdrained & (_ & Hbound & _)).
  assert (Hlen : (length (invocations (history st)) + length (queue st) = length l)%nat).
  { rewrite <- length_app, Hord. apply entries_from_length. }
  destruct Hdrained as [Hq | Hfull].
  - rewrite Hq in *. rewrite app_nil_r in Hord. cbn [length] in Hlen.
    rewrite Hord. rewrite firstn_all2, skipn_all2
      by (rewrite entries_from_length; lia).
    rewrite <- Hord. repeat split. lia.
  - assert (Hk : length (invocations (history st)) = Z.to_nat maxCalls) by lia.
    rewrite <- Hord, <- Hk. rewrite firstn_app, skipn_app, firstn_all, skipn_all.
    rewrite Nat.sub_diag. cbn [firstn skipn app]. rewrite app_nil_r.
    repeat split. lia.
Qed.

Lemma burst_beyond_budget_is_queued_witness :
  let st := run 2 (map (@Call Z Z) [10; 20; 30; 40; 50]) init in
  invocations (history st) = [mkEntry 10 0; mkEntry 20 1] /\
  queue st = [mkEntry 30 2; mkEntry 40 3; mkEntry 50 4] /\
  callsMade st = 2.
Proof.
  apply (burst_beyond_budget_is_queued Z Z 2 [10; 20; 30; 40; 50]).
  lia.
Defined.

(** A dispatcher with no budget never calls the producer: with [maxCalls]
    at most 0 every call stays queued, whatever ticks and calls follow, and
    no caller is ever answered. *)
Theorem dispatcher_without_budget_never_invokes :
  forall (Args T : Type) (maxCalls : Z) (inputs : list (Input Args T)),
    maxCalls <= 0 ->
    let st := run maxCalls inputs init in
    invocations (history st) = [] /\
    delivered (history st) = [] /\
    queue st = entries_from 0 (call_args inputs).
Proof.
  intros Args T maxCalls inputs Hmax.
  assert (Hgen : forall s : State Args T,
             callsMade s = 0 -> inflight s = [] ->
             invocations (history s) = [] -> delivered (history s) = [] ->
             let s' := run maxCalls inputs s in
             invocations (history s') = [] /\ delivered (history s') = []).
  { induction inputs as [|i inputs IH]; intros s Hc Hf Hi Hd; cbn zeta; [auto |].
    rewrite run_cons.
    assert (Hidle : forall s0 : State Args T,
               callsMade s0 = 0 -> processQueue maxCalls s0 = s0).
    { intros s0 H0. unfold processQueue. destruct (queue s0); [reflexivity |].
      destruct (Z.geb_spec (callsMade s0) maxCalls); [reflexivity | lia]. }
    destruct i as [a | | ch r]; cbn [step].
    - unfold dispatcher. rewrite Hidle by exact Hc. apply IH; assumption.
    - unfold resetCalls. destruct (interval s); [| apply IH; assumption].
      rewrite Hidle by reflexivity.
      apply IH; cbn [callsMade inflight history]; try assumption; try reflexivity.
      + rewrite invocations_snoc, Hi. reflexivity.
      + rewrite delivered_snoc, Hd. reflexivity.
    - unfold resume. rewrite Hf. cbn [existsb]. apply IH; assumption. }
  intros st. destruct (Hgen init) as (Hi & Hd); try reflexivity.
  fold st in Hi, Hd. split; [exact Hi |]. split; [exact Hd |].
  destruct (run_accounted maxCalls inputs [] init init_accounted) as (Hord & _).
  fold st in Hord. rewrite Hi in Hord. exact Hord.
Qed.

Lemma dispatcher_without_budget_never_invokes_witness :
  let st := run 0 [Call 1; Tick; Call 2; Tick] (@init Z Z) in
  invocations (history st) = [] /\
  delivered (history st) = [] /\
  queue st = [mkEntry 1 0; mkEntry 2 1].
Proof.
  apply (dispatcher_without_budget_never_invokes Z Z 0 [Call 1; Tick; Call 2; Tick]).
  lia.
Defined.

End RateLimitMore.

(** ** [batch] *)

Module BatchMore.

Import Batch Observe BatchFacts.

Section Processor.

Context {T R : Type}.
Variable items : list T.
Variable processor : T -> Settlement R.
Variable o : Options.

(** What the loop inserts between two groups. *)
Local Abbreviation pause_of :=
  (if delay_of o >? 0 then [@EvSleep T (delay_of o)] else []).

Lemma groups_pause_app (tr : list (Event T)) :
  groups (pause_of ++ tr) = groups tr.
Proof.
  destruct (delay_of o >? 0); reflexivity.
Qed.

Lemma groups_cons (g : list T) (tr : list (Event T)) :
  groups (EvGroup g :: tr) = g :: groups tr.
Proof. reflexivity. Qed.

(** The trace of every run of the loop from index [k] on: its groups with
    the pause between consecutive ones, and a first group exactly when
    items remain. *)
Lemma batch_loop_trace (fuel : nat) :
  1 <= size_of o ->
  forall (k : nat) (results : list R) r tr,
    batch_loop items processor o fuel (Z.of_nat k) results = Some (r, tr) ->
    tr = interleave pause_of (groups tr) /\
    ((k < length items)%nat -> groups tr <> []) /\
    ((length items <= k)%nat -> tr = []).
Proof.
  intros Hsize.
  induction fuel as [|fuel IH]; intros k results r tr Hrun; cbn [batch_loop] in Hrun.
  - destruct (Z.ltb_spec (Z.of_nat k) (Z.of_nat (length items))); [discriminate |].
    inversion Hrun; subst.
    split; [reflexivity | split; [intros; lia | reflexivity]].
  - destruct (Z.ltb_spec (Z.of_nat k) (Z.of_nat (length items))) as [Hlt | Hge].
    + destruct (promise_all _) as [vs | e].
      * replace (Z.of_nat k + size_of o)
          with (Z.of_nat (k + group_size o)) in Hrun
          by (unfold group_size; lia).
        destruct (batch_loop items processor o fuel _ _) as [[r' tr'] |] eqn:Hrec;
          [| discriminate].
        inversion Hrun; subst r tr. clear Hrun.
        destruct (IH _ _ _ _ Hrec) as (Hshape & Hsome & Hnone).
        split; [| split; [intros _; discriminate | lia]].
        destruct (Z.ltb_spec (Z.of_nat (k + group_size o)) (Z.of_nat (length items)))
          as [Hmore | Hlast].
        -- specialize (Hsome ltac:(lia)).
           rewrite andb_true_r.
           rewrite groups_cons, groups_pause_app.
           destruct (groups tr') as [|g gs] eqn:Hg; [congruence |].
           cbn [interleave]. f_equal. f_equal. exact Hshape.
        -- rewrite (Hnone ltac:(lia)). rewrite andb_false_r. reflexivity.
      * inversion Hrun; subst.
        split; [reflexivity | split; [intros _; discriminate | intros; lia]].
    + inversion Hrun; subst.
      split; [reflexivity | split; [intros; lia | reflexivity]].
Qed.

(** The [concurrency] option has no effect on the loop. *)
Lemma batch_loop_ignores_concurrency (s d c1 c2 : option Z) (fuel : nat) :
  forall (i : Z) (results : list R),
    batch_loop items processor (mkOptions s d c1) fuel i results
    = batch_loop items processor (mkOptions s d c2) fuel i results.
Proof.
  induction fuel as [|fuel IH]; intros i results; [reflexivity |].
  cbn [batch_loop]. destruct (i <? Z.of_nat (length items)); [| reflexivity].
  change (size_of (mkOptions s d c1)) with (size_of (mkOptions s d c2)).
  change (delay_of (mkOptions s d c1)) with (delay_of (mkOptions s d c2)).
  destruct (promise_all _); [| reflexivity].
  rewrite IH. reflexivity.
Qed.

Lemma In_slice (l : list T) (s e : Z) (x : T) : In x (slice l s e) -> In x l.
Proof.
  unfold slice. intros H.
  set (rest := skipn _ l) in H.
  assert (Hrest : In x rest).
  { rewrite <- (firstn_skipn (Z.to_nat (relative_index (Z.of_nat (length l)) e
                                   - relative_index (Z.of_nat (length l)) s)) rest).
    apply in_or_app. left. exact H. }
  subst rest. rewrite <- (firstn_skipn (Z.to_nat (relative_index (Z.of_nat (length l)) s)) l).
  apply in_or_app. right. exact Hrest.
Qed.

(** With a negative [size] the index never passes the end of the list. *)
Lemma batch_loop_negative_size (fuel : nat) :
  size_of o < 0 ->
  items <> [] ->
  Forall (succeeds processor) items ->
  forall (i : Z) (results : list R),
    i <= 0 ->
    batch_loop items processor o fuel i results = None.
Proof.
  intros Hneg Hne Hok.
  assert (Hlen : 0 < Z.of_nat (length items)) by (destruct items; [congruence | cbn; lia]).
  induction fuel as [|fuel IH]; intros i results Hi; cbn [batch_loop];
    destruct (Z.ltb_spec i (Z.of_nat (length items))); try lia; [reflexivity |].
  destruct (promise_all_cases processor (slice items i (i + size_of o)))
    as [[-> _] | (e & y & _ & Hy & Hrej & _)].
  - rewrite IH by lia. reflexivity.
  - apply In_slice in Hy. rewrite Forall_forall in Hok.
    specialize (Hok y Hy). unfold succeeds in Hok. rewrite Hrej in Hok. discriminate.
Qed.

End Processor.

(** The groups of [batch] are separated by pauses and by nothing else: for
    a group size of at least 1, the trace of every run, successful or not,
    is its groups with one suspension of [delay] ms between consecutive
    groups when [delay] is positive, and with none otherwise. There is no
    pause before the first group or after the last one. *)
Theorem batch_pauses_between_groups :
  forall (T R : Type) (items : list T) (processor : T -> Settlement R)
         (o : Options),
    1 <= size_of o ->
    exists r tr,
      batch items processor o = Some (r, tr) /\
      tr = interleave (if delay_of o >? 0 then [EvSleep (delay_of o)] else [])
                      (groups tr).
Proof.
  intros T R items processor o Hsize.
  destruct (batch_loop_spec processor items o (length items) Hsize 0 [])
    as (r & tr & Hrun & _).
  { cbn [skipn]. lia. }
  exists r, tr. split; [exact Hrun |].
  destruct (batch_loop_trace items processor o (length items) Hsize 0 [] r tr Hrun)
    as (Hshape & _).
  exact Hshape.
Qed.

Lemma batch_pauses_between_groups_witness :
  exists r tr,
    batch [1; 2; 3; 4; 5] (fun x => mkSettlement 1 (Fulfilled x))
          (mkOptions (Some 2) (Some 500) None) = Some (r, tr) /\
    tr = interleave [EvSleep 500] (groups tr).
Proof.
  apply (batch_pauses_between_groups Z Z [1; 2; 3; 4; 5]
           (fun x => mkSettlement 1 (Fulfilled x))
           (mkOptions (Some 2) (Some 500) None)).
  unfold size_of, or_number. simpl. lia.
Defined.

(** The [concurrency] option is read and never used: two option objects
    that differ only in it give the same run. *)
Theorem batch_ignores_concurrency :
  forall (T R : Type) (items : list T) (processor : T -> Settlement R)
         (s d c1 c2 : option Z),
    batch items processor (mkOptions s d c1)
    = batch items processor (mkOptions s d c2).
Proof.
  intros. unfold batch. apply batch_loop_ignores_concurrency.
Qed.

(** A negative [size] on a list that is not empty, with a processor that
    succeeds on every item: the loop index only decreases, so the loop
    never ends, whatever the number of iterations allowed. *)
Theorem batch_negative_size_never_returns :
  forall (T R : Type) (items : list T) (processor : T -> Settlement R)
         (o : Options),
    size_of o < 0 ->
    items <> [] ->
    Forall (succeeds processor) items ->
    forall fuel, batch_loop items processor o fuel 0 [] = None.
Proof.
  intros T R items processor o Hneg Hne Hok fuel.
  apply batch_loop_negative_size; [exact Hneg | exact Hne | exact Hok | lia].
Qed.

Lemma batch_negative_size_never_returns_witness :
  batch_loop [1; 2; 3] (fun x => mkSettlement 1 (Fulfilled x))
             (mkOptions (Some (-1)) None None) 1000 0 [] = None.
Proof.
  apply (batch_negative_size_never_returns Z Z [1; 2; 3]
           (fun x => mkSettlement 1 (Fulfilled x))
           (mkOptions (Some (-1)) None None)).
  - unfold size_of, or_number. simpl. lia.
  - discriminate.
  - repeat constructor.
Defined.

End BatchMore.

(** ** [AppError], [formatError] and [errorHandler] *)

Module FormatFacts.

Import Format.

(** What the constructor of [AppError] guarantees: the message is the one
    given, the code is never empty and the status never 0 (an empty code or
    a status of 0 is replaced by the default, any other value is kept), and
    the error is operational unless [isOperational: false] was passed. *)
Theorem new_AppError_fields :
  forall (msg : string) (o : AppErrorOptions),
    let e := new_AppError msg o in
    message e = msg /\
    code e <> ""%string /\
    statusCode e <> 0 /\
    (forall c, opt_code o = Some c -> c <> ""%string -> code e = c) /\
    (forall s, opt_statusCode o = Some s -> s <> 0 -> statusCode e = s) /\
    (isOperational e = false <-> opt_isOperational o = Some false).
Proof.
  intros msg [c s b]. cbn.
  split; [reflexivity |]. split; [| split; [| split; [| split]]].
  - destruct c as [[|? ?] |]; discriminate.
  - destruct s as [s |]; [| discriminate]. cbn.
    destruct (Z.eqb_spec s 0); [discriminate | assumption].
  - intros c' Hc Hne. inversion Hc; subst. destruct c'; [congruence | reflexivity].
  - intros s' Hs Hne. inversion Hs; subst. cbn.
    destruct (Z.eqb_spec s' 0); [contradiction | reflexivity].
  - destruct b as [[|] |]; cbn; split; congruence.
Qed.

Lemma new_AppError_fields_witness :
  let e := new_AppError "bad input"
             (mkAppErrorOptions (Some ""%string) (Some 400) (Some false)) in
  code e = "INTERNAL_ERROR"%string /\ statusCode e = 400 /\ isOperational e = false.
Proof.
  destruct (new_AppError_fields "bad input"
              (mkAppErrorOptions (Some ""%string) (Some 400) (Some false)))
    as (_ & _ & _ & _ & Hstatus & Hop).
  split; [reflexivity |]. split.
  - apply (Hstatus 400); [reflexivity | discriminate].
  - apply Hop. reflexivity.
Defined.

Section Details.

Context {D : Type}.
Variable empty_object : D.

(** The status that [errorHandler] sends is never 0: it is 500 for an
    error that is not an [AppError] and for an [AppError] whose status is
    0, and the status of the [AppError] otherwise. The code sent is
    INTERNAL_ERROR for every error that is not an [AppError]. *)
Theorem errorHandler_status :
  forall (env : option string) (e : ErrorObject D) (resp : Response D),
    errorHandler empty_object env e = Some resp ->
    status resp <> 0 /\
    match value e with
    | App a => status resp = (if statusCode a =? 0 then 500 else statusCode a)
               /\ body_code resp = code a
    | _ => status resp = 500 /\ body_code resp = "INTERNAL_ERROR"%string
    end.
Proof.
  intros env e resp. unfold errorHandler, formatError.
  destruct (value e) as [| m | a]; [discriminate | |];
    intros H; inversion H; subst; cbn.
  - split; [discriminate | split; reflexivity].
  - destruct (Z.eqb_spec (statusCode a) 0); split; auto; discriminate.
Qed.

(** Stack traces leave the process only in development: when [NODE_ENV]
    is not [development], neither [formatError] nor the body sent by
    [errorHandler] has a [stack]; in development the body has the stack of
    the error when it is a string that is not empty. *)
Theorem stack_only_in_development :
  forall (env : option string) (e : ErrorObject D),
    (env <> Some "development"%string ->
     (forall f, formatError empty_object env e = Some f -> f_stack f = None) /\
     (forall resp, errorHandler empty_object env e = Some resp ->
                   body_stack resp = None)) /\
    (env = Some "development"%string ->
     forall resp, errorHandler empty_object env e = Some resp ->
                  body_stack resp = truthy_string (stack e)).
Proof.
  intros env e. split.
  - intros Henv.
    assert (Hstack : stack_in env e = None).
    { unfold stack_in. destruct env as [v |]; [| reflexivity].
      destruct (String.eqb_spec v "development"); [congruence | reflexivity]. }
    split.
    + intros f. unfold formatError.
      destruct (value e); [discriminate | |]; intros H; inversion H; exact Hstack.
    + intros resp. unfold errorHandler, formatError.
      destruct (value e); [discriminate | |]; intros H; inversion H; cbn;
        rewrite Hstack; reflexivity.
  - intros -> resp. unfold errorHandler, formatError.
    destruct (value e); [discriminate | |]; intros H; inversion H; reflexivity.
Qed.

End Details.

Lemma errorHandler_status_witness :
  exists resp,
    errorHandler [] (Some "production"%string)
      (mkErrorObject
         (App (new_AppError "no such user"
                 (mkAppErrorOptions (Some "NOT_FOUND"%string) (Some 404) (Some true))))
         (@None (list string)) (Some "at handler"%string)) = Some resp /\
    status resp = 404 /\ body_code resp = "NOT_FOUND"%string /\
    body_stack resp = None.
Proof.
  eexists. split; [reflexivity |].
  destruct (errorHandler_status (@nil string) (Some "production"%string)
              (mkErrorObject
                 (App (new_AppError "no such user"
                         (mkAppErrorOptions (Some "NOT_FOUND"%string) (Some 404) (Some true))))
                 (@None (list string)) (Some "at handler"%string)) _ eq_refl)
    as (_ & Hstatus & Hcode).
  split; [exact Hstatus |]. split; [exact Hcode | reflexivity].
Defined.

Lemma stack_only_in_development_witness :
  exists resp,
    errorHandler [] (Some "test"%string)
      (mkErrorObject (PlainError "boom") (@None (list string))
         (Some "at line 1"%string)) = Some resp /\
    body_stack resp = None.
Proof.
  eexists. split; [reflexivity |].
  apply (proj1 (stack_only_in_development (@nil string) (Some "test"%string)
                  (mkErrorObject (PlainError "boom") None (Some "at line 1"%string)))).
  - discriminate.
  - reflexivity.
Defined.

End FormatFacts.
